(** * RingBuffer: the three circular FIFOs of the repository

    The repository holds three restatements of one fixed-capacity circular
    queue:

    - [gfifo]         (gfifo.h): C macros, cursors reduced with [& mask];
    - [generic_fifo]  (generic_fifo.h): C macros, cursors reduced with [% size];
    - [CircularFifo]  (CircularFifo.cs): a generic C# class, [% _size].

    Each is embedded below as Rocq functions over an explicit state record.
    Conventions of the embedding:

    - [unsigned int], [uint32_t] and C#'s [uint] are integers of [Z] whose
      arithmetic is reduced modulo [2^32] ([u32]); [&] is [Z.land];
    - a C truth value (the [0]/[1] a macro returns) is a [bool];
    - the storage behind a [void *] is the list of bytes it points to, kept
      in the state record; [memcpy] moves bytes between such lists and has
      no result ([None]) when a range leaves its object, which is undefined
      behaviour in C; [% 0] has no result either;
    - the [_type] argument of a macro is represented by its [sizeof], the
      argument [esz];
    - a C# exception (division by zero, array index out of range) is [None]. *)

From Stdlib Require Import ZArith Lia.
From Stdlib Require Import Init.Byte Strings.Byte.
From stdpp Require Import base option list.

Open Scope Z_scope.

(** ** Machine integers *)

(** Reduction of an [unsigned int] result. *)
Definition u32 (x : Z) : Z := x mod 2 ^ 32.

(** The cast [(int) x] of an [unsigned int] value. *)
Definition to_int (x : Z) : Z := if x <? 2 ^ 31 then x else x - 2 ^ 32.

(** The conversion of an [int] or [unsigned int] operand to [unsigned int],
    as a comparison with an [unsigned int] performs it: a negative [int]
    becomes its value plus [2^32]. *)
Definition as_unsigned (x : Z) : Z := if x <? 0 then x + 2 ^ 32 else x.

(** [a % b] on unsigned operands: no result for [b = 0]. *)
Definition umod (a b : Z) : option Z :=
  if b =? 0 then None else Some (a mod b).

(** A slot count that is a power of two and fits an [unsigned int]. *)
Definition pow2_u32 (s : Z) : Prop := ∃ k : Z, 0 ≤ k < 32 ∧ s = 2 ^ k.

(** ** Byte storage *)

(** [memcpy (dst + doff, src + soff, n)] on byte offsets: the new content of
    the destination object. *)
Definition memcpy (dst : list byte) (doff : Z) (src : list byte) (soff n : Z)
  : option (list byte) :=
  if decide (0 ≤ doff ∧ 0 ≤ soff ∧ 0 ≤ n
             ∧ soff + n ≤ Z.of_nat (length src)
             ∧ doff + n ≤ Z.of_nat (length dst))
  then Some (take (Z.to_nat doff) dst
             ++ take (Z.to_nat n) (drop (Z.to_nat soff) src)
             ++ drop (Z.to_nat (doff + n)) dst)
  else None.

(** The bytes of element [i] of an array of elements of [esz] bytes. *)
Definition slot (m : list byte) (esz i : Z) : list byte :=
  take (Z.to_nat esz) (drop (Z.to_nat (i * esz)) m).

(** The order of two byte strings of one length, the bytes compared as
    [unsigned char]: negative, zero or positive. *)
Fixpoint bytes_cmp (a b : list byte) : Z :=
  match a, b with
  | x :: a', y :: b' =>
      match N.compare (Byte.to_N x) (Byte.to_N y) with
      | Eq => bytes_cmp a' b'
      | Lt => -1
      | Gt => 1
      end
  | _, _ => 0
  end.

(** [memcmp (a + aoff, b + boff, n)] on byte offsets. *)
Definition memcmp (a : list byte) (aoff : Z) (b : list byte) (boff n : Z)
  : option Z :=
  if decide (0 ≤ aoff ∧ 0 ≤ boff ∧ 0 ≤ n
             ∧ aoff + n ≤ Z.of_nat (length a)
             ∧ boff + n ≤ Z.of_nat (length b))
  then Some (bytes_cmp (take (Z.to_nat n) (drop (Z.to_nat aoff) a))
                       (take (Z.to_nat n) (drop (Z.to_nat boff) b)))
  else None.

(** ** gfifo.h: the mask-based queue *)

Module Gfifo.

(** [struct gfifo]; [data] is the storage the pointer refers to, [in_] the
    field [in]. *)
Record gfifo := mk_gfifo {
  data : list byte;
  in_ : Z;
  out : Z;
  size : Z;
  mask : Z
}.

(** [gfifo_init (_fifo, _buf, _size)]: every field is assigned, nothing is
    tested, and the macro yields no status. *)
Definition gfifo_init (_buf : list byte) (_size : Z) : gfifo :=
  {| data := _buf; in_ := 0; out := 0; size := u32 _size;
     mask := u32 (_size - 1) |}.

Definition gfifo_empty (f : gfifo) : bool := in_ f =? out f.

Definition gfifo_full (f : gfifo) : bool :=
  Z.land (u32 (in_ f + 1)) (mask f) =? out f.

(** The spelling [vaild] is the source's. *)
Definition gfifo_vaild_count (f : gfifo) : Z :=
  Z.land (u32 (in_ f - out f)) (mask f).

(** [gfifo_insert (_fifo, _value, _type)]: the status and the new state. *)
Definition gfifo_insert (f : gfifo) (_value : list byte) (esz : Z)
  : option (bool * gfifo) :=
  let _ret := negb (Z.land (u32 (in_ f + 1)) (mask f) =? out f) in
  if _ret then
    d ← memcpy (data f) (in_ f * esz) _value 0 esz;
    Some (_ret, {| data := d; in_ := Z.land (u32 (in_ f + 1)) (mask f);
                   out := out f; size := size f; mask := mask f |})
  else Some (_ret, f).

(** [gfifo_remove (_fifo, _value, _type)]: the status, the content of
    [*_value] afterwards, and the new state. *)
Definition gfifo_remove (f : gfifo) (_value : list byte) (esz : Z)
  : option (bool * list byte * gfifo) :=
  let _ret := negb (in_ f =? out f) in
  if _ret then
    v ← memcpy _value 0 (data f) (out f * esz) esz;
    Some (_ret, v, {| data := data f; in_ := in_ f;
                      out := Z.land (u32 (out f + 1)) (mask f);
                      size := size f; mask := mask f |})
  else Some (_ret, _value, f).

(** [gfifo_peek (_fifo, _value, _type)].  The source does not write
    [sizeof (_type)] for the number of bytes but [sizoef (_type)], a name
    that C does not define: the macro expands to a call of whatever
    [sizoef] the including file provides.  That number of bytes is the
    parameter [sizoef] here. *)
Definition gfifo_peek (sizoef : Z) (f : gfifo) (_value : list byte) (esz : Z)
  : option (bool * list byte * gfifo) :=
  let _ret := negb (in_ f =? out f) in
  if _ret then
    v ← memcpy _value 0 (data f) (out f * esz) sizoef;
    Some (_ret, v, f)
  else Some (_ret, _value, f).

Definition gfifo_throw (f : gfifo) : bool * gfifo :=
  let _ret := negb (in_ f =? out f) in
  if _ret then
    (_ret, {| data := data f; in_ := in_ f;
              out := Z.land (u32 (out f + 1)) (mask f);
              size := size f; mask := mask f |})
  else (_ret, f).

(** [gfifo_insert_array (_fifo, _array, _len, _type)], [_len] an
    [unsigned int] (or a non-negative [int], which C converts).  The byte
    counts [sizeof (_type) * ...] are [size_t] products and are not reduced. *)
Definition gfifo_insert_array (f : gfifo) (_array : list byte) (_len esz : Z)
  : option (bool * gfifo) :=
  let _ret := u32 (gfifo_vaild_count f + _len) <? size f in
  if _ret then
    d ← (if u32 (in_ f + _len) <? size f then
           memcpy (data f) (in_ f * esz) _array 0 (esz * _len)
         else
           d1 ← memcpy (data f) (in_ f * esz) _array 0
                  (esz * u32 (size f - in_ f));
           memcpy d1 0 _array
             (u32 (_len - u32 (size f - in_ f)) * esz)
             (esz * u32 (_len - u32 (size f - in_ f))));
    Some (_ret, {| data := d; in_ := Z.land (u32 (in_ f + _len)) (mask f);
                   out := out f; size := size f; mask := mask f |})
  else Some (_ret, f).

(** [gfifo_remove_array (_fifo, _array, _len, _type)]: the status, the
    content of [_array] afterwards, and the new state.  [_len] is an [int]
    or an [unsigned int]; the test [gfifo_vaild_count (_fifo) >= _len]
    compares it as [unsigned int], so a negative [_len] is refused. *)
Definition gfifo_remove_array (f : gfifo) (_array : list byte) (_len esz : Z)
  : option (bool * list byte * gfifo) :=
  let _ret := as_unsigned _len <=? gfifo_vaild_count f in
  if _ret then
    a ← (if u32 (out f + _len) <? size f then
           memcpy _array 0 (data f) (out f * esz) (esz * _len)
         else
           a1 ← memcpy _array 0 (data f) (out f * esz)
                  (esz * u32 (size f - out f));
           memcpy a1 (u32 (_len - u32 (size f - out f)) * esz) (data f) 0
             (esz * u32 (_len - u32 (size f - out f))));
    Some (_ret, a, {| data := data f; in_ := in_ f;
                      out := Z.land (u32 (out f + _len)) (mask f);
                      size := size f; mask := mask f |})
  else Some (_ret, _array, f).

End Gfifo.

(** ** generic_fifo.h: the modulo-based queue *)

Module GenericFifo.

(** [struct generic_fifo]; [buffer] is the storage the pointer refers to. *)
Record generic_fifo := mk_generic_fifo {
  buffer : list byte;
  in_idx : Z;
  out_idx : Z;
  size : Z;
  user_buffer_flag : Z
}.

(** [generic_fifo_init (_fifo, _buffer, _flag, _size)], of type [void]. *)
Definition generic_fifo_init (_buffer : list byte) (_flag _size : Z)
  : generic_fifo :=
  {| buffer := _buffer; size := u32 _size; in_idx := 0; out_idx := 0;
     user_buffer_flag := _flag mod 2 ^ 8 |}.

Definition generic_fifo_full (f : generic_fifo) : option bool :=
  r ← umod (u32 (in_idx f + 1)) (size f);
  Some (r =? out_idx f).

Definition generic_fifo_empty (f : generic_fifo) : bool :=
  in_idx f =? out_idx f.

Definition generic_fifo_valid_count (f : generic_fifo) : option Z :=
  r ← umod (u32 (u32 (in_idx f - out_idx f) + size f)) (size f);
  Some (to_int r).

(** [generic_fifo_unused_count (_fifo)].  As the source has it, the macro
    cannot be used: the last expression of its statement expression,
    [__fifo->size - ((...) % __fifo->size)], is not followed by [;] before
    the closing brace, which C does not accept, so every expansion is a
    syntax error.  The definition gives the value of that last expression,
    that is, what the macro yields once the missing [;] is supplied; every
    statement about [generic_fifo_unused_count] below is about the macro
    so completed. *)
Definition generic_fifo_unused_count (f : generic_fifo) : option Z :=
  r ← umod (u32 (u32 (in_idx f - out_idx f) + size f)) (size f);
  Some (to_int (u32 (size f - r))).

Definition generic_fifo_insert (f : generic_fifo) (_value : list byte)
  (esz : Z) : option (bool * generic_fifo) :=
  full ← generic_fifo_full f;
  let __ret := negb full in
  if __ret then
    d ← memcpy (buffer f) (in_idx f * esz) _value 0 esz;
    i ← umod (u32 (in_idx f + 1)) (size f);
    Some (__ret, {| buffer := d; in_idx := i; out_idx := out_idx f;
                    size := size f;
                    user_buffer_flag := user_buffer_flag f |})
  else Some (__ret, f).

Definition generic_fifo_remove (f : generic_fifo) (_value : list byte)
  (esz : Z) : option (bool * list byte * generic_fifo) :=
  let __ret := negb (generic_fifo_empty f) in
  if __ret then
    v ← memcpy _value 0 (buffer f) (out_idx f * esz) esz;
    o ← umod (u32 (out_idx f + 1)) (size f);
    Some (__ret, v, {| buffer := buffer f; in_idx := in_idx f; out_idx := o;
                       size := size f;
                       user_buffer_flag := user_buffer_flag f |})
  else Some (__ret, _value, f).

(** [generic_fifo_change (_fifo, _value, _index, _type)], [_index] an [int]:
    the slot written is [(out_idx + _index) % size]. *)
Definition generic_fifo_change (f : generic_fifo) (_value : list byte)
  (_index esz : Z) : option (bool * generic_fifo) :=
  c ← generic_fifo_valid_count f;
  let __ret := _index <? c in
  if __ret then
    i ← umod (u32 (out_idx f + _index)) (size f);
    d ← memcpy (buffer f) (i * esz) _value 0 esz;
    Some (__ret, {| buffer := d; in_idx := in_idx f; out_idx := out_idx f;
                    size := size f;
                    user_buffer_flag := user_buffer_flag f |})
  else Some (__ret, f).

(** [generic_fifo_select_index (_fifo, _value, _index, _type)]: the element
    read is [(_type * ) buffer + out_idx + _index], pointer arithmetic with
    no reduction modulo [size]. *)
Definition generic_fifo_select_index (f : generic_fifo) (_value : list byte)
  (_index esz : Z) : option (bool * list byte * generic_fifo) :=
  c ← generic_fifo_valid_count f;
  if _index <? c then
    v ← memcpy _value 0 (buffer f) ((out_idx f + _index) * esz) esz;
    Some (true, v, f)
  else Some (false, _value, f).

Definition generic_fifo_reset (f : generic_fifo) : generic_fifo :=
  {| buffer := buffer f; in_idx := 0; out_idx := 0; size := size f;
     user_buffer_flag := user_buffer_flag f |}.

(** The [while] loop of [generic_fifo_select_value]; it runs at most
    [__valid] times, which is what [fuel] starts from.  [__count],
    [__buffer_offset] and [__valid] are [int] variables, [__ret] is [-1]
    until a match is found. *)
Fixpoint select_value_while (f : generic_fifo) (_value : list byte) (esz : Z)
  (fuel : nat) (__count __buffer_offset __valid : Z) : option Z :=
  match fuel with
  | O => Some (-1)
  | S fuel' =>
      if __count <? __valid then
        c ← memcmp _value 0 (buffer f) (__buffer_offset * esz) esz;
        if c =? 0 then Some __count
        else
          o ← umod (u32 (out_idx f + (__count + 1))) (size f);
          select_value_while f _value esz fuel' (__count + 1) (to_int o)
            __valid
      else Some (-1)
  end.

(** [generic_fifo_select_value (_fifo, _value, _type)]: the queue position
    of the first element equal to [*_value], or [-1]. *)
Definition generic_fifo_select_value (f : generic_fifo) (_value : list byte)
  (esz : Z) : option Z :=
  __valid ← generic_fifo_valid_count f;
  if negb (generic_fifo_empty f) then
    select_value_while f _value esz (Z.to_nat __valid) 0
      (to_int (out_idx f)) __valid
  else Some (-1).

End GenericFifo.

(** ** CircularFifo.cs: the C# class *)

Module CircularFifo.

Section Class.

Context {T : Type}.

(** What [new T[n]] fills the array with, [default(T)]. *)
Variable default : T.

(** The private members of [CircularFifo<T>]. *)
Record CircularFifo := mk_CircularFifo {
  _buffer : list T;
  _inIdx : Z;
  _outIdx : Z;
  _size : Z;
  _capacity : Z
}.

(** [array[i]] for an index of any integer type. *)
Definition array_get (a : list T) (i : Z) : option T :=
  if i <? 0 then None else a !! Z.to_nat i.

(** [array[i] = x]. *)
Definition array_set (a : list T) (i : Z) (x : T) : option (list T) :=
  if (0 <=? i) && (i <? Z.of_nat (length a))
  then Some (<[Z.to_nat i := x]> a) else None.

(** [a % b] on [long] operands: the remainder takes the dividend's sign. *)
Definition lrem (a b : Z) : option Z :=
  if b =? 0 then None else Some (Z.rem a b).

(** The constructor [CircularFifo (uint capacity)]. *)
Definition new (capacity : Z) : CircularFifo :=
  {| _buffer := replicate (Z.to_nat (u32 (capacity + 1))) default;
     _capacity := capacity;
     _size := u32 (capacity + 1);
     _inIdx := 0;
     _outIdx := 0 |}.

Definition Count (f : CircularFifo) : option Z :=
  umod (u32 (u32 (_inIdx f - _outIdx f) + _size f)) (_size f).

Definition UnusedCount (f : CircularFifo) : option Z :=
  c ← Count f; Some (u32 (_capacity f - c)).

Definition IsFull (f : CircularFifo) : option bool :=
  r ← umod (u32 (_inIdx f + 1)) (_size f); Some (r =? _outIdx f).

Definition IsEmpty (f : CircularFifo) : bool := _inIdx f =? _outIdx f.

Definition Insert (f : CircularFifo) (item : T)
  : option (bool * CircularFifo) :=
  full ← IsFull f;
  if (full : bool) then Some (false, f)
  else
    b ← array_set (_buffer f) (_inIdx f) item;
    i ← umod (u32 (_inIdx f + 1)) (_size f);
    Some (true, {| _buffer := b; _inIdx := i; _outIdx := _outIdx f;
                   _size := _size f; _capacity := _capacity f |}).

(** [Remove (ref T item)]: the status, [item] afterwards, the new state. *)
Definition Remove (f : CircularFifo) (item : T)
  : option (bool * T * CircularFifo) :=
  if IsEmpty f then Some (false, item, f)
  else
    x ← array_get (_buffer f) (_outIdx f);
    o ← umod (u32 (_outIdx f + 1)) (_size f);
    Some (true, x, {| _buffer := _buffer f; _inIdx := _inIdx f;
                      _outIdx := o; _size := _size f;
                      _capacity := _capacity f |}).

(** [GetValue (ref T item, int index)].  The guard is the conjunction
    [index < 0 && index > Count ()]; [Count ()] is only evaluated when the
    first operand holds.  The index expression is computed on [long]. *)
Definition GetValue (f : CircularFifo) (item : T) (index : Z)
  : option (bool * T) :=
  guard_holds ← (if index <? 0 then c ← Count f; Some (c <? index)
                 else Some false);
  if (guard_holds : bool) then Some (false, item)
  else
    i ← lrem (_outIdx f + index) (_size f);
    x ← array_get (_buffer f) i;
    Some (true, x).

(** The loop of [GetAll]: [n] iterations are left, [i] is the counter. *)
Fixpoint GetAll_for (f : CircularFifo) (n : nat) (i : Z) (ret : list T)
  : option (list T) :=
  match n with
  | O => Some ret
  | S n' =>
      j ← lrem (_outIdx f + i) (_size f);
      x ← array_get (_buffer f) j;
      ret' ← array_set ret i x;
      GetAll_for f n' (i + 1) ret'
  end.

Definition GetAll (f : CircularFifo) : option (list T) :=
  c ← Count f;
  let ret := replicate (Z.to_nat c) default in
  GetAll_for f (length ret) 0 ret.

Definition Clear (f : CircularFifo) : CircularFifo :=
  {| _buffer := _buffer f; _inIdx := 0; _outIdx := 0; _size := _size f;
     _capacity := _capacity f |}.

(** The property [Capacity]. *)
Definition Capacity (f : CircularFifo) : Z := _capacity f.

(** [Remove ()], the overload that drops the oldest element. *)
Definition Remove0 (f : CircularFifo) : option (bool * CircularFifo) :=
  if IsEmpty f then Some (false, f)
  else
    o ← umod (u32 (_outIdx f + 1)) (_size f);
    Some (true, {| _buffer := _buffer f; _inIdx := _inIdx f;
                   _outIdx := o; _size := _size f;
                   _capacity := _capacity f |}).

(** The loop of [RemoveAll]: [Remove (ref ret[i])] for each [i], its status
    ignored. *)
Fixpoint RemoveAll_for (f : CircularFifo) (n : nat) (i : Z) (ret : list T)
  : option (list T * CircularFifo) :=
  match n with
  | O => Some (ret, f)
  | S n' =>
      item ← array_get ret i;
      '(_, item', f') ← Remove f item;
      ret' ← array_set ret i item';
      RemoveAll_for f' n' (i + 1) ret'
  end.

Definition RemoveAll (f : CircularFifo) : option (list T * CircularFifo) :=
  c ← Count f;
  let ret := replicate (Z.to_nat c) default in
  RemoveAll_for f (length ret) 0 ret.

End Class.

Arguments CircularFifo : clear implicits.

End CircularFifo.

(** ** Sequences of operations *)

(** A single-element insert of [v], or a single-element remove into a
    variable that holds [v] before the call. *)
Inductive op (A : Type) :=
  | Put (v : A)
  | Get (v : A).

Arguments Put {A} v.
Arguments Get {A} v.


(** Runs a sequence on a [gfifo]; the result counts the inserts and the
    removes that reported success. *)
Fixpoint gfifo_run (esz : Z) (ops : list (op (list byte))) (f : Gfifo.gfifo)
  : option (Z * Z * Gfifo.gfifo) :=
  match ops with
  | [] => Some (0, 0, f)
  | Put v :: ops' =>
      '(r, f') ← Gfifo.gfifo_insert f v esz;
      '(i, d, f'') ← gfifo_run esz ops' f';
      Some (Z.b2z r + i, d, f'')
  | Get v :: ops' =>
      '(r, _, f') ← Gfifo.gfifo_remove f v esz;
      '(i, d, f'') ← gfifo_run esz ops' f';
      Some (i, Z.b2z r + d, f'')
  end.

Fixpoint generic_fifo_run (esz : Z) (ops : list (op (list byte)))
  (f : GenericFifo.generic_fifo) : option (Z * Z * GenericFifo.generic_fifo) :=
  match ops with
  | [] => Some (0, 0, f)
  | Put v :: ops' =>
      '(r, f') ← GenericFifo.generic_fifo_insert f v esz;
      '(i, d, f'') ← generic_fifo_run esz ops' f';
      Some (Z.b2z r + i, d, f'')
  | Get v :: ops' =>
      '(r, _, f') ← GenericFifo.generic_fifo_remove f v esz;
      '(i, d, f'') ← generic_fifo_run esz ops' f';
      Some (i, Z.b2z r + d, f'')
  end.

Fixpoint CircularFifo_run {T : Type} (ops : list (op T))
  (f : CircularFifo.CircularFifo T)
  : option (Z * Z * CircularFifo.CircularFifo T) :=
  match ops with
  | [] => Some (0, 0, f)
  | Put v :: ops' =>
      '(r, f') ← CircularFifo.Insert f v;
      '(i, d, f'') ← CircularFifo_run ops' f';
      Some (Z.b2z r + i, d, f'')
  | Get v :: ops' =>
      '(r, _, f') ← CircularFifo.Remove f v;
      '(i, d, f'') ← CircularFifo_run ops' f';
      Some (i, Z.b2z r + d, f'')
  end.

(** The calls the two C variants share, and what a caller sees of each. *)
Inductive call :=
  | CInit (buf : list byte) (flag size : Z)
  | CInsert (v : list byte) (esz : Z)
  | CRemove (v : list byte) (esz : Z)
  | CEmpty
  | CFull
  | CCount.

Inductive answer :=
  | ADone
  | AStatus (r : bool)
  | AValue (r : bool) (v : list byte)
  | ACount (n : Z).

Definition gfifo_call (f : Gfifo.gfifo) (c : call)
  : option (answer * Gfifo.gfifo) :=
  match c with
  | CInit buf _ size => Some (ADone, Gfifo.gfifo_init buf size)
  | CInsert v esz =>
      '(r, f') ← Gfifo.gfifo_insert f v esz; Some (AStatus r, f')
  | CRemove v esz =>
      '(r, v', f') ← Gfifo.gfifo_remove f v esz; Some (AValue r v', f')
  | CEmpty => Some (AStatus (Gfifo.gfifo_empty f), f)
  | CFull => Some (AStatus (Gfifo.gfifo_full f), f)
  | CCount => Some (ACount (Gfifo.gfifo_vaild_count f), f)
  end.

Definition generic_fifo_call (f : GenericFifo.generic_fifo) (c : call)
  : option (answer * GenericFifo.generic_fifo) :=
  match c with
  | CInit buf flag size =>
      Some (ADone, GenericFifo.generic_fifo_init buf flag size)
  | CInsert v esz =>
      '(r, f') ← GenericFifo.generic_fifo_insert f v esz;
      Some (AStatus r, f')
  | CRemove v esz =>
      '(r, v', f') ← GenericFifo.generic_fifo_remove f v esz;
      Some (AValue r v', f')
  | CEmpty => Some (AStatus (GenericFifo.generic_fifo_empty f), f)
  | CFull => r ← GenericFifo.generic_fifo_full f; Some (AStatus r, f)
  | CCount => n ← GenericFifo.generic_fifo_valid_count f; Some (ACount n, f)
  end.

Fixpoint gfifo_trace (cs : list call) (f : Gfifo.gfifo)
  : option (list answer) :=
  match cs with
  | [] => Some []
  | c :: cs' =>
      '(a, f') ← gfifo_call f c;
      t ← gfifo_trace cs' f';
      Some (a :: t)
  end.

Fixpoint generic_fifo_trace (cs : list call) (f : GenericFifo.generic_fifo)
  : option (list answer) :=
  match cs with
  | [] => Some []
  | c :: cs' =>
      '(a, f') ← generic_fifo_call f c;
      t ← generic_fifo_trace cs' f';
      Some (a :: t)
  end.

(** A call sequence whose every (re)initialisation asks for a power of two. *)
Definition call_pow2 (c : call) : Prop :=
  match c with CInit _ _ size => pow2_u32 size | _ => True end.

(** ** State invariants *)

(** A [gfifo] bound to a power-of-two slot count with both cursors inside. *)
Definition gfifo_wf (f : Gfifo.gfifo) : Prop :=
  pow2_u32 (Gfifo.size f)
  ∧ Gfifo.mask f = Gfifo.size f - 1
  ∧ 0 ≤ Gfifo.in_ f < Gfifo.size f
  ∧ 0 ≤ Gfifo.out f < Gfifo.size f.

(** A [generic_fifo] with at least one and at most [2^31] slots (so that
    the sum in its count does not wrap and the count fits an [int]) and
    both cursors inside. *)
Definition generic_fifo_wf (f : GenericFifo.generic_fifo) : Prop :=
  0 < GenericFifo.size f ≤ 2 ^ 31
  ∧ 0 ≤ GenericFifo.in_idx f < GenericFifo.size f
  ∧ 0 ≤ GenericFifo.out_idx f < GenericFifo.size f.

Definition CircularFifo_wf {T : Type} (f : CircularFifo.CircularFifo T)
  : Prop :=
  0 < CircularFifo._size f ≤ 2 ^ 31
  ∧ Z.of_nat (length (CircularFifo._buffer f)) = CircularFifo._size f
  ∧ 0 ≤ CircularFifo._inIdx f < CircularFifo._size f
  ∧ 0 ≤ CircularFifo._outIdx f < CircularFifo._size f.

(** The two C variants in step: same storage, same cursors, same size. *)
Definition in_step (f : Gfifo.gfifo) (g : GenericFifo.generic_fifo) : Prop :=
  Gfifo.data f = GenericFifo.buffer g
  ∧ Gfifo.in_ f = GenericFifo.in_idx g
  ∧ Gfifo.out f = GenericFifo.out_idx g
  ∧ Gfifo.size f = GenericFifo.size g.

(** ** The wraparound scenario on the C# class *)

(** Four slots; insert [a b c], remove two, insert [d e], then [GetAll].
    The result lists every status, the two removed values and the snapshot. *)
Definition wraparound_scenario {T : Type} (default a b c d e : T)
  : option (list bool * list T * list T) :=
  '(r1, f) ← CircularFifo.Insert (CircularFifo.new default 3) a;
  '(r2, f) ← CircularFifo.Insert f b;
  '(r3, f) ← CircularFifo.Insert f c;
  '(r4, x1, f) ← CircularFifo.Remove f default;
  '(r5, x2, f) ← CircularFifo.Remove f default;
  '(r6, f) ← CircularFifo.Insert f d;
  '(r7, f) ← CircularFifo.Insert f e;
  all ← CircularFifo.GetAll default f;
  Some ([r1; r2; r3; r4; r5; r6; r7], [x1; x2], all).

(** ** States used in the examples below *)

(** Four one-byte slots, one element held in slot 0. *)
Definition gfifo_one_held : Gfifo.gfifo :=
  {| Gfifo.data := [x0a; x00; x00; x00]; Gfifo.in_ := 1; Gfifo.out := 0;
     Gfifo.size := 4; Gfifo.mask := 3 |}.

(** Four one-byte slots, empty again after two inserts and two removes. *)
Definition gfifo_drained : Gfifo.gfifo :=
  {| Gfifo.data := [x0a; x0b; x00; x00]; Gfifo.in_ := 2; Gfifo.out := 2;
     Gfifo.size := 4; Gfifo.mask := 3 |}.

(** Four one-byte slots, all three usable ones taken. *)
Definition gfifo_filled : Gfifo.gfifo :=
  {| Gfifo.data := [x01; x02; x03; x00]; Gfifo.in_ := 3; Gfifo.out := 0;
     Gfifo.size := 4; Gfifo.mask := 3 |}.

Definition generic_fifo_filled : GenericFifo.generic_fifo :=
  {| GenericFifo.buffer := [x01; x02; x03; x00]; GenericFifo.in_idx := 3;
     GenericFifo.out_idx := 0; GenericFifo.size := 4;
     GenericFifo.user_buffer_flag := 0 |}.

(** Four one-byte slots holding [x04] (oldest, slot 3) and [x05] (slot 0):
    the queue has wrapped. *)
Definition generic_fifo_wrapped : GenericFifo.generic_fifo :=
  {| GenericFifo.buffer := [x05; x02; x03; x04]; GenericFifo.in_idx := 1;
     GenericFifo.out_idx := 3; GenericFifo.size := 4;
     GenericFifo.user_buffer_flag := 0 |}.

Definition zeros4 : list byte := [x00; x00; x00; x00].

(** ** The queue a buffer state stands for *)

(** The [count] elements from the read cursor [out] on, oldest first, slot
    numbers reduced modulo [size]; [rd] reads a slot. *)
Definition ring_contents {A : Type} (rd : Z → A) (out count size : Z)
  : list A :=
  (λ k, rd ((out + k) mod size)) <$> seqZ 0 count.

Definition gfifo_contents (esz : Z) (f : Gfifo.gfifo) : list (list byte) :=
  ring_contents (slot (Gfifo.data f) esz) (Gfifo.out f)
    ((Gfifo.in_ f - Gfifo.out f) mod Gfifo.size f) (Gfifo.size f).

Definition generic_fifo_contents (esz : Z) (f : GenericFifo.generic_fifo)
  : list (list byte) :=
  ring_contents (slot (GenericFifo.buffer f) esz) (GenericFifo.out_idx f)
    ((GenericFifo.in_idx f - GenericFifo.out_idx f) mod GenericFifo.size f)
    (GenericFifo.size f).

(** A well-formed [CircularFifo] whose held elements are [q], oldest
    first. *)
Definition CircularFifo_holds {T : Type} (f : CircularFifo.CircularFifo T)
  (q : list T) : Prop :=
  CircularFifo_wf f
  ∧ CircularFifo._capacity f = CircularFifo._size f - 1
  ∧ Some <$> q
    = ring_contents (λ k, CircularFifo._buffer f !! Z.to_nat k)
        (CircularFifo._outIdx f)
        ((CircularFifo._inIdx f - CircularFifo._outIdx f)
         mod CircularFifo._size f)
        (CircularFifo._size f).

(** Element [k] of an array of elements of [esz] bytes, for each [k] below
    [n]. *)
Definition elements (a : list byte) (esz n : Z) : list (list byte) :=
  slot a esz <$> seqZ 0 n.

(** ** A bounded queue as a list *)

(** The calls of the C variants on a list that holds at most [cap]
    elements; the state is [(cap, q)]. *)
Definition queue_call (s : Z * list (list byte)) (c : call)
  : answer * (Z * list (list byte)) :=
  let '(cap, q) := s in
  match c with
  | CInit _ _ size => (ADone, (size - 1, []))
  | CInsert v _ =>
      if Z.of_nat (length q) <? cap then (AStatus true, (cap, q ++ [v]))
      else (AStatus false, (cap, q))
  | CRemove v _ =>
      match q with
      | [] => (AValue false v, (cap, q))
      | x :: q' => (AValue true x, (cap, q'))
      end
  | CEmpty => (AStatus (Z.of_nat (length q) =? 0), (cap, q))
  | CFull => (AStatus (Z.of_nat (length q) =? cap), (cap, q))
  | CCount => (ACount (Z.of_nat (length q)), (cap, q))
  end.

Fixpoint queue_trace (cs : list call) (s : Z * list (list byte))
  : list answer :=
  match cs with
  | [] => []
  | c :: cs' => let '(a, s') := queue_call s c in a :: queue_trace cs' s'
  end.

(** Calls whose element size is [esz] throughout, whose values have that
    many bytes, and whose (re)initialisations bring storage for the slots
    they ask for; the slot count is a power of two for [gfifo] and between
    1 and [2^31] for [generic_fifo]. *)
Definition gfifo_call_fits (esz : Z) (c : call) : Prop :=
  match c with
  | CInit buf _ size =>
      pow2_u32 size ∧ size * esz ≤ Z.of_nat (length buf)
  | CInsert v e | CRemove v e => e = esz ∧ Z.of_nat (length v) = esz
  | _ => True
  end.

Definition generic_fifo_call_fits (esz : Z) (c : call) : Prop :=
  match c with
  | CInit buf _ size =>
      0 < size ≤ 2 ^ 31 ∧ size * esz ≤ Z.of_nat (length buf)
  | CInsert v e | CRemove v e => e = esz ∧ Z.of_nat (length v) = esz
  | _ => True
  end.

(** The methods of [CircularFifo<T>] ([GetValue] apart) and what each
    returns. *)
Inductive method (T : Type) :=
  | MInsert (item : T)
  | MRemove (item : T)
  | MRemove0
  | MRemoveAll
  | MGetAll
  | MCount
  | MUnusedCount
  | MIsFull
  | MIsEmpty
  | MClear
  | MCapacity.

Arguments MInsert {T} item.
Arguments MRemove {T} item.
Arguments MRemove0 {T}.
Arguments MRemoveAll {T}.
Arguments MGetAll {T}.
Arguments MCount {T}.
Arguments MUnusedCount {T}.
Arguments MIsFull {T}.
Arguments MIsEmpty {T}.
Arguments MClear {T}.
Arguments MCapacity {T}.

Inductive reply (T : Type) :=
  | RVoid
  | RBool (r : bool)
  | RItem (r : bool) (item : T)
  | RItems (items : list T)
  | RNum (n : Z).

Arguments RVoid {T}.
Arguments RBool {T} r.
Arguments RItem {T} r item.
Arguments RItems {T} items.
Arguments RNum {T} n.

Definition CircularFifo_call {T : Type} (default : T)
  (f : CircularFifo.CircularFifo T) (m : method T)
  : option (reply T * CircularFifo.CircularFifo T) :=
  match m with
  | MInsert item =>
      '(r, f') ← CircularFifo.Insert f item; Some (RBool r, f')
  | MRemove item =>
      '(r, item', f') ← CircularFifo.Remove f item; Some (RItem r item', f')
  | MRemove0 => '(r, f') ← CircularFifo.Remove0 f; Some (RBool r, f')
  | MRemoveAll =>
      '(l, f') ← CircularFifo.RemoveAll default f; Some (RItems l, f')
  | MGetAll => l ← CircularFifo.GetAll default f; Some (RItems l, f)
  | MCount => n ← CircularFifo.Count f; Some (RNum n, f)
  | MUnusedCount => n ← CircularFifo.UnusedCount f; Some (RNum n, f)
  | MIsFull => r ← CircularFifo.IsFull f; Some (RBool r, f)
  | MIsEmpty => Some (RBool (CircularFifo.IsEmpty f), f)
  | MClear => Some (RVoid, CircularFifo.Clear f)
  | MCapacity => Some (RNum (CircularFifo.Capacity f), f)
  end.

Fixpoint CircularFifo_trace {T : Type} (default : T) (ms : list (method T))
  (f : CircularFifo.CircularFifo T) : option (list (reply T)) :=
  match ms with
  | [] => Some []
  | m :: ms' =>
      '(a, f') ← CircularFifo_call default f m;
      t ← CircularFifo_trace default ms' f';
      Some (a :: t)
  end.

(** The same methods on a list that holds at most [cap] elements. *)
Definition list_call {T : Type} (cap : Z) (q : list T) (m : method T)
  : reply T * list T :=
  match m with
  | MInsert item =>
      if Z.of_nat (length q) <? cap then (RBool true, q ++ [item])
      else (RBool false, q)
  | MRemove item =>
      match q with
      | [] => (RItem false item, q)
      | x :: q' => (RItem true x, q')
      end
  | MRemove0 =>
      match q with
      | [] => (RBool false, q)
      | _ :: q' => (RBool true, q')
      end
  | MRemoveAll => (RItems q, [])
  | MGetAll => (RItems q, q)
  | MCount => (RNum (Z.of_nat (length q)), q)
  | MUnusedCount => (RNum (cap - Z.of_nat (length q)), q)
  | MIsFull => (RBool (Z.of_nat (length q) =? cap), q)
  | MIsEmpty => (RBool (Z.of_nat (length q) =? 0), q)
  | MClear => (RVoid, [])
  | MCapacity => (RNum cap, q)
  end.

Fixpoint list_trace {T : Type} (cap : Z) (ms : list (method T)) (q : list T)
  : list (reply T) :=
  match ms with
  | [] => []
  | m :: ms' => let '(a, q') := list_call cap q m in a :: list_trace cap ms' q'
  end.

(** * Properties *)

(** ** Arithmetic of the cursors *)

Lemma u32_small (x : Z) : 0 ≤ x < 2 ^ 32 → u32 x = x.
Proof. intros H. unfold u32. by apply Z.mod_small. Qed.

Lemma u32_add_l (a b : Z) : u32 (u32 a + b) = u32 (a + b).
Proof. unfold u32. by rewrite Z.add_mod_idemp_l. Qed.

Lemma to_int_small (x : Z) : x < 2 ^ 31 → to_int x = x.
Proof.
  intros H. unfold to_int.
  destruct (x <? 2 ^ 31) eqn:E; [done | apply Z.ltb_ge in E; lia].
Qed.

Lemma as_unsigned_nonneg (x : Z) : 0 ≤ x → as_unsigned x = x.
Proof.
  intros H. unfold as_unsigned. destruct (Z.ltb_spec x 0); [lia | done].
Qed.

Lemma umod_pos (a b : Z) : 0 < b → umod a b = Some (a mod b).
Proof.
  intros H. unfold umod.
  destruct (b =? 0) eqn:E; [apply Z.eqb_eq in E; lia | done].
Qed.

Lemma pow2_u32_bounds (s : Z) : pow2_u32 s → 0 < s ≤ 2 ^ 31.
Proof.
  intros (k & Hk & ->). split.
  - apply Z.pow_pos_nonneg; lia.
  - apply Z.pow_le_mono_r; lia.
Qed.

Lemma land_pow2_mask (s x : Z) : pow2_u32 s → Z.land x (s - 1) = x mod s.
Proof.
  intros (k & Hk & ->).
  rewrite <- Z.land_ones by lia.
  by rewrite Z.ones_equiv, <- Z.sub_1_r.
Qed.

Lemma u32_mod_pow2 (s x : Z) : pow2_u32 s → u32 x mod s = x mod s.
Proof.
  intros (k & Hk & ->). unfold u32.
  apply Z.mod_mod_divide.
  exists (2 ^ (32 - k)).
  rewrite <- Z.pow_add_r by lia. f_equal. lia.
Qed.

(** The successor of a cursor, and the distance between two, in closed
    form. *)
Lemma mod_succ (n c : Z) :
  0 ≤ c < n → (c + 1) mod n = if c + 1 =? n then 0 else c + 1.
Proof.
  intros H. destruct (c + 1 =? n) eqn:E.
  - apply Z.eqb_eq in E. rewrite E. apply Z_mod_same_full.
  - apply Z.eqb_neq in E. apply Z.mod_small. lia.
Qed.

Lemma mod_diff (n i o : Z) :
  0 ≤ i < n → 0 ≤ o < n →
  (i - o) mod n = if i <? o then i - o + n else i - o.
Proof.
  intros Hi Ho. destruct (i <? o) eqn:E.
  - apply Z.ltb_lt in E.
    rewrite <- (Z_mod_plus_full (i - o) 1 n).
    rewrite Z.mul_1_l. apply Z.mod_small. lia.
  - apply Z.ltb_ge in E. apply Z.mod_small. lia.
Qed.

Lemma ring_insert_count (n i o : Z) :
  0 ≤ i < n → 0 ≤ o < n → (i + 1) mod n ≠ o →
  ((i + 1) mod n - o) mod n = (i - o) mod n + 1.
Proof.
  intros Hi Ho. rewrite (mod_succ n i) by done. intros Hne.
  assert (0 ≤ (if i + 1 =? n then 0 else i + 1) < n) as Hs
    by (destruct (Z.eqb_spec (i + 1) n); lia).
  rewrite !mod_diff by done.
  destruct (i + 1 =? n) eqn:E;
    [apply Z.eqb_eq in E | apply Z.eqb_neq in E];
    repeat match goal with
           | |- context [?a <? ?b] =>
               let E' := fresh in
               destruct (a <? b) eqn:E';
               [apply Z.ltb_lt in E' | apply Z.ltb_ge in E']
           end; lia.
Qed.

Lemma ring_remove_count (n i o : Z) :
  0 ≤ i < n → 0 ≤ o < n → i ≠ o →
  (i - (o + 1) mod n) mod n = (i - o) mod n - 1.
Proof.
  intros Hi Ho Hne. rewrite (mod_succ n o) by done.
  assert (0 ≤ (if o + 1 =? n then 0 else o + 1) < n) as Hs
    by (destruct (Z.eqb_spec (o + 1) n); lia).
  rewrite !mod_diff by done.
  destruct (o + 1 =? n) eqn:E;
    [apply Z.eqb_eq in E | apply Z.eqb_neq in E];
    repeat match goal with
           | |- context [?a <? ?b] =>
               let E' := fresh in
               destruct (a <? b) eqn:E';
               [apply Z.ltb_lt in E' | apply Z.ltb_ge in E']
           end; lia.
Qed.

Lemma ring_full_count (n i o : Z) :
  0 ≤ i < n → 0 ≤ o < n →
  (i + 1) mod n = o ↔ (i - o) mod n = n - 1.
Proof.
  intros Hi Ho. rewrite (mod_succ n i), mod_diff by done.
  destruct (i + 1 =? n) eqn:E;
    [apply Z.eqb_eq in E | apply Z.eqb_neq in E];
    destruct (i <? o) eqn:E';
    [apply Z.ltb_lt in E' | apply Z.ltb_ge in E'
    |apply Z.ltb_lt in E' | apply Z.ltb_ge in E']; lia.
Qed.

(** ** [memcpy] *)

Lemma memcpy_Some (dst : list byte) (doff : Z) (src : list byte) (soff n : Z) :
  0 ≤ doff → 0 ≤ soff → 0 ≤ n →
  soff + n ≤ Z.of_nat (length src) → doff + n ≤ Z.of_nat (length dst) →
  memcpy dst doff src soff n
  = Some (take (Z.to_nat doff) dst
          ++ take (Z.to_nat n) (drop (Z.to_nat soff) src)
          ++ drop (Z.to_nat (doff + n)) dst).
Proof. intros. unfold memcpy. by rewrite decide_True. Qed.

Lemma memcpy_length (dst : list byte) (doff : Z) (src : list byte)
  (soff n : Z) (dst' : list byte) :
  memcpy dst doff src soff n = Some dst' → length dst' = length dst.
Proof.
  unfold memcpy. case_decide as H; [|done]. intros [= <-].
  rewrite !length_app, !length_take, length_drop, length_drop. lia.
Qed.

(** Copying a whole object replaces it. *)
Lemma memcpy_whole (dst src : list byte) (soff n : Z) :
  0 ≤ soff → Z.of_nat (length dst) = n →
  soff + n ≤ Z.of_nat (length src) →
  memcpy dst 0 src soff n
  = Some (take (Z.to_nat n) (drop (Z.to_nat soff) src)).
Proof.
  intros H0 Hn H1. rewrite memcpy_Some by lia.
  rewrite Z.add_0_l. simpl.
  rewrite (drop_ge dst) by lia. by rewrite app_nil_r.
Qed.

(** What was stored in a slot is what the slot holds. *)
Lemma slot_memcpy (m v m' : list byte) (esz i : Z) :
  memcpy m (i * esz) v 0 esz = Some m' →
  slot m' esz i = take (Z.to_nat esz) v.
Proof.
  unfold memcpy. case_decide as H; [|done]. intros [= <-].
  unfold slot. simpl.
  rewrite drop_app_length' by (rewrite length_take; lia).
  rewrite take_app_length'; [done|].
  rewrite length_take, length_drop. lia.
Qed.

(** ** The cursors of a well-formed [gfifo] *)

Lemma gfifo_next (f : Gfifo.gfifo) (c : Z) :
  gfifo_wf f →
  Z.land (u32 (c + 1)) (Gfifo.mask f) = (c + 1) mod Gfifo.size f.
Proof.
  intros (Hp & -> & _). by rewrite land_pow2_mask, u32_mod_pow2.
Qed.

Lemma gfifo_count_mod (f : Gfifo.gfifo) :
  gfifo_wf f →
  Gfifo.gfifo_vaild_count f
  = (Gfifo.in_ f - Gfifo.out f) mod Gfifo.size f.
Proof.
  intros (Hp & Hm & _). unfold Gfifo.gfifo_vaild_count.
  by rewrite Hm, land_pow2_mask, u32_mod_pow2.
Qed.

Lemma gfifo_count_range (f : Gfifo.gfifo) :
  gfifo_wf f → 0 ≤ Gfifo.gfifo_vaild_count f ≤ Gfifo.size f - 1.
Proof.
  intros Hwf. rewrite gfifo_count_mod by done.
  destruct Hwf as (Hp%pow2_u32_bounds & _).
  pose proof (Z.mod_pos_bound (Gfifo.in_ f - Gfifo.out f) (Gfifo.size f)).
  lia.
Qed.

Lemma gfifo_init_wf (buf : list byte) (size : Z) :
  pow2_u32 size → gfifo_wf (Gfifo.gfifo_init buf size).
Proof.
  intros Hp. pose proof (pow2_u32_bounds _ Hp) as Hb.
  assert (2 ^ 31 < 2 ^ 32) by done.
  unfold gfifo_wf, Gfifo.gfifo_init; simpl.
  rewrite !u32_small by lia. repeat split; (done || lia).
Qed.




(** ** The cursors of the modulo-based variants *)

Lemma umod_next (n c : Z) :
  0 < n ≤ 2 ^ 31 → 0 ≤ c < n →
  umod (u32 (c + 1)) n = Some ((c + 1) mod n).
Proof.
  intros Hn Hc. assert (2 ^ 31 < 2 ^ 32) by done.
  rewrite u32_small by lia. apply umod_pos. lia.
Qed.

Lemma umod_count (n i o : Z) :
  0 < n ≤ 2 ^ 31 → 0 ≤ i < n → 0 ≤ o < n →
  umod (u32 (u32 (i - o) + n)) n = Some ((i - o) mod n).
Proof.
  intros Hn Hi Ho. assert (2 ^ 31 < 2 ^ 32) by done.
  rewrite u32_add_l, u32_small by lia.
  rewrite umod_pos by lia. f_equal.
  rewrite <- (Z_mod_plus_full (i - o) 1 n). f_equal. lia.
Qed.

Lemma generic_fifo_count_mod (f : GenericFifo.generic_fifo) :
  generic_fifo_wf f →
  GenericFifo.generic_fifo_valid_count f
  = Some ((GenericFifo.in_idx f - GenericFifo.out_idx f)
          mod GenericFifo.size f).
Proof.
  intros (Hn & Hi & Ho). unfold GenericFifo.generic_fifo_valid_count.
  rewrite umod_count by done. simpl. f_equal. apply to_int_small.
  pose proof (Z.mod_pos_bound (GenericFifo.in_idx f - GenericFifo.out_idx f)
                (GenericFifo.size f)). lia.
Qed.

Lemma generic_fifo_full_mod (f : GenericFifo.generic_fifo) :
  generic_fifo_wf f →
  GenericFifo.generic_fifo_full f
  = Some ((GenericFifo.in_idx f + 1) mod GenericFifo.size f
          =? GenericFifo.out_idx f).
Proof.
  intros (Hn & Hi & Ho). unfold GenericFifo.generic_fifo_full.
  by rewrite umod_next.
Qed.

Lemma generic_fifo_init_wf (buf : list byte) (flag size : Z) :
  0 < size ≤ 2 ^ 31 →
  generic_fifo_wf (GenericFifo.generic_fifo_init buf flag size).
Proof.
  intros Hn. assert (2 ^ 31 < 2 ^ 32) by done.
  unfold generic_fifo_wf, GenericFifo.generic_fifo_init; simpl.
  rewrite !u32_small by lia. lia.
Qed.




(** ** The cursors of [CircularFifo<T>] *)

Section CircularFifoFacts.

Context {T : Type}.
Implicit Types (f : CircularFifo.CircularFifo T) (x : T).

Lemma CircularFifo_count_mod f :
  CircularFifo_wf f →
  CircularFifo.Count f
  = Some ((CircularFifo._inIdx f - CircularFifo._outIdx f)
          mod CircularFifo._size f).
Proof.
  intros (Hn & _ & Hi & Ho). unfold CircularFifo.Count.
  by apply umod_count.
Qed.

Lemma CircularFifo_new_wf (default : T) (capacity : Z) :
  0 ≤ capacity < 2 ^ 31 →
  CircularFifo_wf (CircularFifo.new default capacity).
Proof.
  intros Hc. assert (2 ^ 31 < 2 ^ 32) by done.
  unfold CircularFifo_wf, CircularFifo.new; simpl.
  rewrite length_replicate, !u32_small by lia. lia.
Qed.




End CircularFifoFacts.

(** ** The two C variants side by side *)

Lemma in_step_wf (f : Gfifo.gfifo) (g : GenericFifo.generic_fifo) :
  gfifo_wf f → in_step f g → generic_fifo_wf g.
Proof.
  intros (Hp%pow2_u32_bounds & _ & Hi & Ho) (_ & Ei & Eo & Es).
  unfold generic_fifo_wf. rewrite <- Ei, <- Eo, <- Es. done.
Qed.

Lemma init_in_step (buf : list byte) (flag size : Z) :
  in_step (Gfifo.gfifo_init buf size)
          (GenericFifo.generic_fifo_init buf flag size).
Proof. done. Qed.

(** One call keeps the two variants in step and is answered alike; where
    one has no result, neither has the other. *)
Lemma call_in_step (f : Gfifo.gfifo) (g : GenericFifo.generic_fifo)
  (c : call) :
  gfifo_wf f → in_step f g → call_pow2 c →
  match gfifo_call f c, generic_fifo_call g c with
  | Some (a, f'), Some (a', g') => a = a' ∧ gfifo_wf f' ∧ in_step f' g'
  | None, None => True
  | _, _ => False
  end.
Proof.
  intros Hwf Hstep Hc.
  pose proof (in_step_wf _ _ Hwf Hstep) as Hwg.
  pose proof Hwf as (Hp & Hm & Hi & Ho).
  pose proof (pow2_u32_bounds _ Hp) as Hb.
  pose proof Hstep as (Ed & Ei & Eo & Es).
  destruct c as [buf flag size | v esz | v esz | | |]; simpl.
  - split; [done|]. split; [by apply gfifo_init_wf | apply init_in_step].
  - unfold Gfifo.gfifo_insert, GenericFifo.generic_fifo_insert.
    rewrite gfifo_next, generic_fifo_full_mod by done.
    rewrite <- Ed, <- Ei, <- Eo, <- Es. simpl.
    destruct (Z.eqb_spec ((Gfifo.in_ f + 1) mod Gfifo.size f) (Gfifo.out f))
      as [Hfull | Hfree]; simpl; [done|].
    destruct (memcpy (Gfifo.data f) (Gfifo.in_ f * esz) v 0 esz) as [d|];
      simpl; [|done].
    rewrite umod_next by lia. simpl.
    pose proof (Z.mod_pos_bound (Gfifo.in_ f + 1) (Gfifo.size f)).
    split; [done|]. split; [|done].
    repeat split; simpl; (done || lia).
  - unfold Gfifo.gfifo_remove, GenericFifo.generic_fifo_remove,
      GenericFifo.generic_fifo_empty.
    rewrite gfifo_next by done.
    rewrite <- Ed, <- Ei, <- Eo, <- Es. simpl.
    destruct (Z.eqb_spec (Gfifo.in_ f) (Gfifo.out f))
      as [Hempty | Hsome]; simpl; [done|].
    destruct (memcpy v 0 (Gfifo.data f) (Gfifo.out f * esz) esz) as [v'|];
      simpl; [|done].
    rewrite umod_next by lia. simpl.
    pose proof (Z.mod_pos_bound (Gfifo.out f + 1) (Gfifo.size f)).
    split; [done|]. split; [|done].
    repeat split; simpl; (done || lia).
  - unfold Gfifo.gfifo_empty, GenericFifo.generic_fifo_empty.
    by rewrite Ei, Eo.
  - rewrite generic_fifo_full_mod by done. simpl.
    unfold Gfifo.gfifo_full. rewrite gfifo_next by done.
    by rewrite Ei, Eo, Es.
  - rewrite generic_fifo_count_mod by done. simpl.
    rewrite gfifo_count_mod by done.
    by rewrite Ei, Eo, Es.
Qed.

Lemma trace_in_step (cs : list call) (f : Gfifo.gfifo)
  (g : GenericFifo.generic_fifo) :
  gfifo_wf f → in_step f g → Forall call_pow2 cs →
  gfifo_trace cs f = generic_fifo_trace cs g.
Proof.
  intros Hwf Hstep Hcs. revert f g Hwf Hstep.
  induction Hcs as [|c cs Hc Hcs IH]; intros f g Hwf Hstep; [done|].
  simpl. pose proof (call_in_step f g c Hwf Hstep Hc) as H.
  destruct (gfifo_call f c) as [[a f']|],
           (generic_fifo_call g c) as [[a' g']|]; try done.
  destruct H as (-> & Hwf' & Hstep'). simpl.
  by rewrite (IH f' g').
Qed.

(** ** The claims *)

(** C2 (as stated, refuted): construction with an invalid capacity does not
    fail.  [gfifo_init] with capacity 0 and with capacity 3 (not a power of
    two), and [generic_fifo_init] with capacity 0, each leave a bound
    structure behind; the macros have no status to report. *)
Lemma init_accepts_invalid_capacity :
  Gfifo.gfifo_init [] 0
  = {| Gfifo.data := []; Gfifo.in_ := 0; Gfifo.out := 0; Gfifo.size := 0;
       Gfifo.mask := 4294967295 |}
  ∧ Gfifo.gfifo_init [x00; x00; x00] 3
    = {| Gfifo.data := [x00; x00; x00]; Gfifo.in_ := 0; Gfifo.out := 0;
         Gfifo.size := 3; Gfifo.mask := 2 |}
  ∧ GenericFifo.generic_fifo_init [] 0 0
    = {| GenericFifo.buffer := []; GenericFifo.in_idx := 0;
         GenericFifo.out_idx := 0; GenericFifo.size := 0;
         GenericFifo.user_buffer_flag := 0 |}.
Proof. split; [|split]; vm_compute; reflexivity. Qed.

(** C2 (amended): construction validates nothing and cannot fail.  For
    every requested capacity, zero and non-powers of two included, both
    init macros bind the storage, zero both cursors and record the capacity
    reduced to [unsigned int] (the mask being the capacity minus one, also
    reduced), and the structure reports empty; [gfifo] counts 0 elements. *)
Theorem init_never_fails :
  (∀ (buf : list byte) (capacity : Z),
     let f := Gfifo.gfifo_init buf capacity in
     Gfifo.data f = buf ∧ Gfifo.in_ f = 0 ∧ Gfifo.out f = 0
     ∧ Gfifo.size f = capacity mod 2 ^ 32
     ∧ Gfifo.mask f = (capacity - 1) mod 2 ^ 32
     ∧ Gfifo.gfifo_empty f = true
     ∧ Gfifo.gfifo_vaild_count f = 0)
  ∧ (∀ (buf : list byte) (flag capacity : Z),
       let f := GenericFifo.generic_fifo_init buf flag capacity in
       GenericFifo.buffer f = buf ∧ GenericFifo.in_idx f = 0
       ∧ GenericFifo.out_idx f = 0
       ∧ GenericFifo.size f = capacity mod 2 ^ 32
       ∧ GenericFifo.generic_fifo_empty f = true).
Proof.
  split; intros; cbv zeta; repeat (split; [reflexivity|]); reflexivity.
Qed.

(** C6: on a full buffer the next single-element insert reports failure and
    returns the state it was given, cursors and storage included, in all
    three variants. *)
Theorem insert_on_full_is_refused :
  (∀ (f : Gfifo.gfifo) (v : list byte) (esz : Z),
     Gfifo.gfifo_full f = true →
     Gfifo.gfifo_insert f v esz = Some (false, f))
  ∧ (∀ (f : GenericFifo.generic_fifo) (v : list byte) (esz : Z),
       GenericFifo.generic_fifo_full f = Some true →
       GenericFifo.generic_fifo_insert f v esz = Some (false, f))
  ∧ (∀ (T : Type) (f : CircularFifo.CircularFifo T) (x : T),
       CircularFifo.IsFull f = Some true →
       CircularFifo.Insert f x = Some (false, f)).
Proof.
  split; [|split].
  - intros f v esz Hfull. unfold Gfifo.gfifo_full in Hfull.
    unfold Gfifo.gfifo_insert. by rewrite Hfull.
  - intros f v esz Hfull. unfold GenericFifo.generic_fifo_insert.
    by rewrite Hfull.
  - intros T f x Hfull. unfold CircularFifo.Insert. by rewrite Hfull.
Qed.

Lemma insert_on_full_is_refused_witness :
  Gfifo.gfifo_insert gfifo_filled [x09] 1 = Some (false, gfifo_filled)
  ∧ GenericFifo.generic_fifo_insert generic_fifo_filled [x09] 1
    = Some (false, generic_fifo_filled)
  ∧ (∃ f, CircularFifo.Insert (CircularFifo.new x00 0) x09 = Some (false, f)
          ∧ f = CircularFifo.new x00 0).
Proof.
  destruct insert_on_full_is_refused as (Hg & Hq & Hc).
  split; [|split].
  - apply Hg. vm_compute. reflexivity.
  - apply Hq. vm_compute. reflexivity.
  - exists (CircularFifo.new x00 0).
    split; [apply Hc; vm_compute; reflexivity | reflexivity].
Defined.

(** C8: four slots (capacity 3); after inserting [a b c], removing two and
    inserting [d e], every call has succeeded, the removed values are [a b],
    and [GetAll] returns [c d e], the held elements in insertion order. *)
Theorem wraparound_keeps_fifo_order (T : Type) (default a b c d e : T) :
  wraparound_scenario default a b c d e
  = Some ([true; true; true; true; true; true; true], [a; b], [c; d; e]).
Proof. vm_compute. reflexivity. Qed.

(** C9 (as stated, refuted): on a non-full buffer that already holds an
    element, a successful insert of [x0b] followed at once by a remove
    yields the older element [x0a], not the value just inserted. *)
Lemma round_trip_fails_on_nonempty :
  Gfifo.gfifo_full gfifo_one_held = false
  ∧ Gfifo.gfifo_insert gfifo_one_held [x0b] 1
    = Some (true,
            {| Gfifo.data := [x0a; x0b; x00; x00]; Gfifo.in_ := 2;
               Gfifo.out := 0; Gfifo.size := 4; Gfifo.mask := 3 |})
  ∧ Gfifo.gfifo_remove
      {| Gfifo.data := [x0a; x0b; x00; x00]; Gfifo.in_ := 2;
         Gfifo.out := 0; Gfifo.size := 4; Gfifo.mask := 3 |} [x00] 1
    = Some (true, [x0a],
            {| Gfifo.data := [x0a; x0b; x00; x00]; Gfifo.in_ := 2;
               Gfifo.out := 1; Gfifo.size := 4; Gfifo.mask := 3 |})
  ∧ [x0a] ≠ [x0b].
Proof.
  split; [|split; [|split]]; [vm_compute; reflexivity.. | discriminate].
Qed.

(** C9 (amended): for every element value [v] of any size [esz] and every
    buffer that is empty and not full, whose write slot lies inside its
    storage, [insert v] succeeds and the remove that follows at once succeeds
    and yields exactly the bytes of [v]. *)
Theorem insert_remove_round_trip (f : Gfifo.gfifo) (v old : list byte)
  (esz : Z) :
  Gfifo.gfifo_empty f = true →
  Gfifo.gfifo_full f = false →
  0 ≤ Gfifo.in_ f →
  (Gfifo.in_ f + 1) * esz ≤ Z.of_nat (length (Gfifo.data f)) →
  Z.of_nat (length v) = esz →
  Z.of_nat (length old) = esz →
  ∃ f1 f2,
    Gfifo.gfifo_insert f v esz = Some (true, f1)
    ∧ Gfifo.gfifo_remove f1 old esz = Some (true, v, f2).
Proof.
  intros Hempty Hfull Hin Hmem Hv Hold.
  destruct f as [data i o size mask]; simpl in *.
  unfold Gfifo.gfifo_empty in Hempty; simpl in Hempty.
  apply Z.eqb_eq in Hempty; subst o.
  unfold Gfifo.gfifo_full in Hfull; simpl in Hfull.
  unfold Gfifo.gfifo_insert; simpl. rewrite Hfull; simpl.
  destruct (memcpy data (i * esz) v 0 esz) as [d|] eqn:Hd;
    [|exfalso; unfold memcpy in Hd; rewrite decide_True in Hd; [done | nia]].
  simpl. eexists _, _. split; [done|].
  unfold Gfifo.gfifo_remove; simpl. rewrite Hfull; simpl.
  pose proof (slot_memcpy _ _ _ _ _ Hd) as Hslot.
  pose proof (memcpy_length _ _ _ _ _ _ Hd) as Hlen.
  rewrite memcpy_whole by nia. simpl.
  fold (slot d esz i). rewrite Hslot, take_ge by lia. done.
Qed.

Lemma insert_remove_round_trip_witness :
  ∃ f1 f2,
    Gfifo.gfifo_insert (Gfifo.gfifo_init zeros4 4) [x2a] 1 = Some (true, f1)
    ∧ Gfifo.gfifo_remove f1 [x00] 1 = Some (true, [x2a], f2).
Proof.
  apply (insert_remove_round_trip (Gfifo.gfifo_init zeros4 4) [x2a] [x00] 1);
    vm_compute; (reflexivity || discriminate).
Defined.

(** C1 (the code departs from the claim): [generic_fifo_wrapped] is reached
    from a fresh four-slot queue and holds two elements, [x04] at position 0
    and [x05] at position 1.  [generic_fifo_select_index] finds position 0,
    but for position 1 it reads slot [3 + 1], past the last slot of the
    storage, where the sibling [generic_fifo_change] addresses slot
    [(3 + 1) % 4 = 0].  In the C# class, [GetValue] on a fresh, empty queue
    accepts index 0, which is not below the count, and reports success. *)
Theorem select_index_does_not_wrap :
  generic_fifo_run 1
    [Put [x01]; Put [x02]; Put [x03]; Get [x00]; Get [x00]; Get [x00];
     Put [x04]; Put [x05]]
    (GenericFifo.generic_fifo_init zeros4 0 4)
  = Some (5, 3, generic_fifo_wrapped)
  ∧ GenericFifo.generic_fifo_valid_count generic_fifo_wrapped = Some 2
  ∧ GenericFifo.generic_fifo_select_index generic_fifo_wrapped [x00] 0 1
    = Some (true, [x04], generic_fifo_wrapped)
  ∧ GenericFifo.generic_fifo_select_index generic_fifo_wrapped [x00] 1 1
    = None
  ∧ GenericFifo.generic_fifo_change generic_fifo_wrapped [xff] 1 1
    = Some (true,
            {| GenericFifo.buffer := [xff; x02; x03; x04];
               GenericFifo.in_idx := 1; GenericFifo.out_idx := 3;
               GenericFifo.size := 4; GenericFifo.user_buffer_flag := 0 |})
  ∧ (∀ (T : Type) (default item : T),
       CircularFifo.Count (CircularFifo.new default 3) = Some 0
       ∧ CircularFifo.GetValue (CircularFifo.new default 3) item 0
         = Some (true, default)).
Proof.
  do 5 (split; [vm_compute; reflexivity|]).
  intros T default item. split; vm_compute; reflexivity.
Qed.

(** C3 (the code departs from the claim): [generic_fifo_unused_count]
    returns nothing as the source has it, its statement expression lacking
    the final [;], so no use of it compiles.  With the [;] supplied the
    expression it states is [size - count], not [size - 1 - count]:
    [generic_fifo_filled], reached by three inserts into a fresh four-slot
    queue, holds 3 elements and refuses a fourth, and the completed macro
    answers 1 there.  The C# class answers 0 in the same situation. *)
Theorem unused_count_is_off_by_one :
  generic_fifo_run 1 [Put [x01]; Put [x02]; Put [x03]]
    (GenericFifo.generic_fifo_init zeros4 0 4)
  = Some (3, 0, generic_fifo_filled)
  ∧ GenericFifo.generic_fifo_valid_count generic_fifo_filled = Some 3
  ∧ GenericFifo.generic_fifo_unused_count generic_fifo_filled = Some 1
  ∧ GenericFifo.generic_fifo_insert generic_fifo_filled [x04] 1
    = Some (false, generic_fifo_filled)
  ∧ (∃ f,
       CircularFifo_run [Put x01; Put x02; Put x03] (CircularFifo.new x00 3)
       = Some (3, 0, f)
       ∧ CircularFifo.Count f = Some 3
       ∧ CircularFifo.UnusedCount f = Some 0).
Proof.
  do 4 (split; [vm_compute; reflexivity|]).
  exists {| CircularFifo._buffer := [x01; x02; x03; x00];
            CircularFifo._inIdx := 3; CircularFifo._outIdx := 0;
            CircularFifo._size := 4; CircularFifo._capacity := 3 |}.
  split; [|split]; vm_compute; reflexivity.
Qed.

(** C4 (the code departs from the claim): [gfifo_peek] copies
    [sizoef (_type)] bytes, whatever the including file makes of that name.
    With a [sizoef] that yields 0 the peek on a queue holding [x0a] reports
    success and leaves the caller's variable as it was; with one that
    yields 2 for a one-byte element it has no result, the copy running
    past the variable.  Only a [sizoef] that agrees with [sizeof] gives the
    oldest element. *)
Theorem peek_copies_sizoef_bytes :
  slot (Gfifo.data gfifo_one_held) 1 (Gfifo.out gfifo_one_held) = [x0a]
  ∧ Gfifo.gfifo_peek 0 gfifo_one_held [x00] 1
    = Some (true, [x00], gfifo_one_held)
  ∧ Gfifo.gfifo_peek 2 gfifo_one_held [x00] 1 = None
  ∧ Gfifo.gfifo_peek 1 gfifo_one_held [x00] 1
    = Some (true, [x0a], gfifo_one_held).
Proof. do 3 (split; [vm_compute; reflexivity|]). vm_compute. reflexivity. Qed.

(** C5 (the code departs from the claim): [gfifo_drained] is reached from a
    fresh four-slot queue by two inserts and two removes.  Inserting the
    array [x01 x02 x03] there succeeds and crosses the end of the storage;
    the second copy starts at [_array + (_len - (size - in))], element 1,
    instead of element [size - in = 2], so slot 0 receives [x02] and the
    queue then yields [x01 x02 x02]. *)
Theorem insert_array_wraps_wrong_element :
  gfifo_run 1 [Put [x0a]; Put [x0b]; Get [x00]; Get [x00]]
    (Gfifo.gfifo_init zeros4 4)
  = Some (2, 2, gfifo_drained)
  ∧ Gfifo.gfifo_insert_array gfifo_drained [x01; x02; x03] 3 1
    = Some (true,
            {| Gfifo.data := [x02; x0b; x01; x02]; Gfifo.in_ := 1;
               Gfifo.out := 2; Gfifo.size := 4; Gfifo.mask := 3 |})
  ∧ Gfifo.gfifo_remove
      {| Gfifo.data := [x02; x0b; x01; x02]; Gfifo.in_ := 1;
         Gfifo.out := 2; Gfifo.size := 4; Gfifo.mask := 3 |} [x00] 1
    = Some (true, [x01],
            {| Gfifo.data := [x02; x0b; x01; x02]; Gfifo.in_ := 1;
               Gfifo.out := 3; Gfifo.size := 4; Gfifo.mask := 3 |})
  ∧ Gfifo.gfifo_remove
      {| Gfifo.data := [x02; x0b; x01; x02]; Gfifo.in_ := 1;
         Gfifo.out := 3; Gfifo.size := 4; Gfifo.mask := 3 |} [x00] 1
    = Some (true, [x02],
            {| Gfifo.data := [x02; x0b; x01; x02]; Gfifo.in_ := 1;
               Gfifo.out := 0; Gfifo.size := 4; Gfifo.mask := 3 |})
  ∧ Gfifo.gfifo_remove
      {| Gfifo.data := [x02; x0b; x01; x02]; Gfifo.in_ := 1;
         Gfifo.out := 0; Gfifo.size := 4; Gfifo.mask := 3 |} [x00] 1
    = Some (true, [x02],
            {| Gfifo.data := [x02; x0b; x01; x02]; Gfifo.in_ := 1;
               Gfifo.out := 1; Gfifo.size := 4; Gfifo.mask := 3 |}).
Proof. do 4 (split; [vm_compute; reflexivity|]). vm_compute. reflexivity. Qed.




(** C10: started on the same storage with the same power-of-two slot
    count, the mask-based [gfifo] and the modulo-based [generic_fifo] answer
    every sequence of init, insert, remove, is-empty, is-full and count
    calls alike: the same statuses, the same counts, the same removed
    values (and where a call of one has no result, the same call of the
    other has none). *)
Theorem mask_and_modulo_variants_agree (buf : list byte) (flag size : Z)
  (cs : list call) :
  pow2_u32 size →
  Forall call_pow2 cs →
  gfifo_trace cs (Gfifo.gfifo_init buf size)
  = generic_fifo_trace cs (GenericFifo.generic_fifo_init buf flag size).
Proof.
  intros Hp Hcs. apply trace_in_step; [|done..].
  by apply gfifo_init_wf.
Qed.

Lemma mask_and_modulo_variants_agree_witness :
  gfifo_trace
    [CInsert [x01] 1; CInsert [x02] 1; CInsert [x03] 1; CFull;
     CInsert [x04] 1; CCount; CRemove [x00] 1; CRemove [x00] 1;
     CInsert [x05] 1; CInsert [x06] 1; CCount; CRemove [x00] 1;
     CInit [x00; x00] 0 2; CEmpty; CRemove [x00] 1]
    (Gfifo.gfifo_init zeros4 4)
  = generic_fifo_trace
      [CInsert [x01] 1; CInsert [x02] 1; CInsert [x03] 1; CFull;
       CInsert [x04] 1; CCount; CRemove [x00] 1; CRemove [x00] 1;
       CInsert [x05] 1; CInsert [x06] 1; CCount; CRemove [x00] 1;
       CInit [x00; x00] 0 2; CEmpty; CRemove [x00] 1]
      (GenericFifo.generic_fifo_init zeros4 0 4)
  ∧ gfifo_trace
      [CInsert [x01] 1; CInsert [x02] 1; CInsert [x03] 1; CFull;
       CInsert [x04] 1; CCount; CRemove [x00] 1; CRemove [x00] 1;
       CInsert [x05] 1; CInsert [x06] 1; CCount; CRemove [x00] 1;
       CInit [x00; x00] 0 2; CEmpty; CRemove [x00] 1]
      (Gfifo.gfifo_init zeros4 4)
    = Some [AStatus true; AStatus true; AStatus true; AStatus true;
            AStatus false; ACount 3; AValue true [x01]; AValue true [x02];
            AStatus true; AStatus true; ACount 3; AValue true [x03];
            ADone; AStatus true; AValue false [x00]].
Proof.
  split; [|vm_compute; reflexivity].
  apply mask_and_modulo_variants_agree.
  - exists 2. split; [lia | reflexivity].
  - repeat constructor. exists 1. split; [lia | reflexivity].
Defined.

(** ** Further properties of the operations *)

(** Byte [p] of the result of a [memcpy]. *)
Lemma memcpy_lookup (dst : list byte) (doff : Z) (src : list byte)
  (soff n : Z) (m' : list byte) (p : nat) :
  memcpy dst doff src soff n = Some m' →
  m' !! p
  = if decide (doff ≤ Z.of_nat p < doff + n)
    then src !! (Z.to_nat soff + (p - Z.to_nat doff))%nat
    else dst !! p.
Proof.
  unfold memcpy. case_decide as H; [|done]. intros [= <-].
  destruct H as (H0 & H1 & H2 & H3 & H4).
  case_decide as Hp.
  - rewrite lookup_app_r by (rewrite length_take; lia).
    rewrite length_take.
    rewrite lookup_app_l by (rewrite length_take, length_drop; lia).
    rewrite lookup_take_lt by lia. rewrite lookup_drop. f_equal. lia.
  - destruct (decide (Z.of_nat p < doff)) as [Hlt | Hge].
    + rewrite lookup_app_l by (rewrite length_take; lia).
      by rewrite lookup_take_lt by lia.
    + rewrite lookup_app_r by (rewrite length_take; lia).
      rewrite lookup_app_r
        by (rewrite !length_take, length_drop; lia).
      rewrite !length_take, length_drop, lookup_drop. f_equal. lia.
Qed.

Lemma slot_lookup (m : list byte) (esz i : Z) (q : nat) :
  slot m esz i !! q
  = if decide (Z.of_nat q < esz)
    then m !! (Z.to_nat (i * esz) + q)%nat else None.
Proof.
  unfold slot. rewrite lookup_take. 
  destruct (decide (q < Z.to_nat esz)%nat), (decide (Z.of_nat q < esz));
    try lia; [|done].
  by rewrite lookup_drop.
Qed.

(** An array copied to slot [i] onwards fills slots [i], [i + 1], ... with
    its elements in order and leaves the slots outside the run alone. *)
Lemma slot_memcpy_array (m arr m' : list byte) (esz i len k : Z) :
  memcpy m (i * esz) arr 0 (esz * len) = Some m' →
  0 ≤ esz → 0 ≤ i → 0 ≤ k < len →
  slot m' esz (i + k) = slot arr esz k.
Proof.
  intros Hm Hesz Hi Hk. apply list_eq. intros q.
  rewrite !slot_lookup. case_decide as Hq; [|done].
  rewrite (memcpy_lookup _ _ _ _ _ _ _ Hm).
  rewrite decide_True by nia. f_equal. nia.
Qed.

Lemma slot_memcpy_frame (m src m' : list byte) (esz i soff n j : Z) :
  memcpy m (i * esz) src soff n = Some m' →
  0 ≤ esz → 0 ≤ i → 0 ≤ j →
  (j + 1) * esz ≤ i * esz ∨ i * esz + n ≤ j * esz →
  slot m' esz j = slot m esz j.
Proof.
  intros Hm Hesz Hi Hj Hout. apply list_eq. intros q.
  rewrite !slot_lookup. case_decide as Hq; [|done].
  rewrite (memcpy_lookup _ _ _ _ _ _ _ Hm).
  rewrite decide_False; [done|]. nia.
Qed.

(** [gfifo_insert_array] that does not fit: refused, nothing changed. *)
Lemma insert_array_refused (f : Gfifo.gfifo) (arr : list byte) (len esz : Z) :
  gfifo_wf f → 0 ≤ len < 2 ^ 31 →
  Gfifo.size f - 1 < Gfifo.gfifo_vaild_count f + len →
  Gfifo.gfifo_insert_array f arr len esz = Some (false, f).
Proof.
  intros Hwf Hlen Hover.
  pose proof (gfifo_count_range f Hwf) as Hc.
  pose proof Hwf as (Hp%pow2_u32_bounds & _).
  assert (2 ^ 31 + 2 ^ 31 = 2 ^ 32) as H32 by done.
  unfold Gfifo.gfifo_insert_array.
  rewrite u32_small by lia.
  destruct (Z.ltb_spec (Gfifo.gfifo_vaild_count f + len) (Gfifo.size f));
    [lia | done].
Qed.

Lemma insert_array_refused_witness :
  Gfifo.gfifo_insert_array gfifo_one_held [x01; x02; x03] 3 1
  = Some (false, gfifo_one_held).
Proof.
  apply insert_array_refused.
  - split; [exists 2; split; [lia | reflexivity]|].
    vm_compute. repeat split; (reflexivity || discriminate).
  - lia.
  - vm_compute. reflexivity.
Defined.

(** [gfifo_insert_array] that fits and does not reach the end of the
    storage: accepted, the elements stored in order from slot [in] on, the
    other slots and the read cursor untouched, the write cursor and the
    count advanced by the length. *)
Lemma insert_array_contiguous (f : Gfifo.gfifo) (arr : list byte)
  (len esz : Z) :
  gfifo_wf f → 0 ≤ esz → 0 ≤ len →
  Gfifo.size f * esz ≤ Z.of_nat (length (Gfifo.data f)) →
  len * esz ≤ Z.of_nat (length arr) →
  Gfifo.gfifo_vaild_count f + len ≤ Gfifo.size f - 1 →
  Gfifo.in_ f + len < Gfifo.size f →
  ∃ f', Gfifo.gfifo_insert_array f arr len esz = Some (true, f')
    ∧ Gfifo.in_ f' = Gfifo.in_ f + len
    ∧ Gfifo.out f' = Gfifo.out f
    ∧ Gfifo.size f' = Gfifo.size f
    ∧ Gfifo.mask f' = Gfifo.mask f
    ∧ Gfifo.gfifo_vaild_count f' = Gfifo.gfifo_vaild_count f + len
    ∧ (∀ k, 0 ≤ k < len →
         slot (Gfifo.data f') esz (Gfifo.in_ f + k) = slot arr esz k)
    ∧ (∀ j, 0 ≤ j < Gfifo.size f →
         ¬ (Gfifo.in_ f ≤ j < Gfifo.in_ f + len) →
         slot (Gfifo.data f') esz j = slot (Gfifo.data f) esz j).
Proof.
  intros Hwf Hesz Hlen Hmem Harr Hfit Hrun.
  pose proof (gfifo_count_range f Hwf) as Hc.
  pose proof Hwf as (Hp & Hm & Hi & Ho).
  pose proof (pow2_u32_bounds _ Hp) as Hb.
  assert (2 ^ 31 + 2 ^ 31 = 2 ^ 32) as H32 by done.
  unfold Gfifo.gfifo_insert_array.
  rewrite !u32_small by lia.
  destruct (Z.ltb_spec (Gfifo.gfifo_vaild_count f + len) (Gfifo.size f));
    [|lia].
  destruct (Z.ltb_spec (Gfifo.in_ f + len) (Gfifo.size f)); [|lia].
  destruct (memcpy (Gfifo.data f) (Gfifo.in_ f * esz) arr 0 (esz * len))
    as [d|] eqn:Hd;
    [|exfalso; unfold memcpy in Hd; rewrite decide_True in Hd; [done | nia]].
  simpl. eexists. split; [done|]. simpl.
  assert (Z.land (Gfifo.in_ f + len) (Gfifo.mask f) = Gfifo.in_ f + len)
    as Hin by (rewrite Hm, land_pow2_mask by done; apply Z.mod_small; lia).
  rewrite Hin. do 4 (split; [done|]).
  split; [|split].
  - rewrite (gfifo_count_mod f Hwf), mod_diff in Hfit |- * by lia.
    unfold Gfifo.gfifo_vaild_count. simpl.
    rewrite Hm, land_pow2_mask, u32_mod_pow2, mod_diff by (done || lia).
    destruct (Z.ltb_spec (Gfifo.in_ f) (Gfifo.out f)),
      (Z.ltb_spec (Gfifo.in_ f + len) (Gfifo.out f)); lia.
  - intros k Hk.
    apply (slot_memcpy_array (Gfifo.data f) arr d esz (Gfifo.in_ f) len k);
      (done || lia).
  - intros j Hj Hout.
    apply (slot_memcpy_frame _ _ _ _ _ _ _ _ Hd); [lia..|]. nia.
Qed.

Lemma insert_array_contiguous_witness :
  ∃ f', Gfifo.gfifo_insert_array gfifo_one_held [x0b; x0c] 2 1
        = Some (true, f')
    ∧ Gfifo.in_ f' = 1 + 2
    ∧ Gfifo.out f' = 0
    ∧ Gfifo.size f' = 4
    ∧ Gfifo.mask f' = 3
    ∧ Gfifo.gfifo_vaild_count f' = Gfifo.gfifo_vaild_count gfifo_one_held + 2
    ∧ (∀ k, 0 ≤ k < 2 →
         slot (Gfifo.data f') 1 (1 + k) = slot [x0b; x0c] 1 k)
    ∧ (∀ j, 0 ≤ j < 4 → ¬ (1 ≤ j < 1 + 2) →
         slot (Gfifo.data f') 1 j = slot (Gfifo.data gfifo_one_held) 1 j).
Proof.
  apply (insert_array_contiguous gfifo_one_held [x0b; x0c] 2 1).
  - split; [exists 2; split; [lia | reflexivity]|].
    vm_compute. repeat split; (reflexivity || discriminate).
  - lia.
  - lia.
  - vm_compute. discriminate.
  - vm_compute. discriminate.
  - vm_compute. discriminate.
  - vm_compute. reflexivity.
Defined.

(** [generic_fifo_select_index] with an index that is not below the count:
    refused, the caller's variable and the queue untouched. *)
Lemma select_index_refused (f : GenericFifo.generic_fifo) (v : list byte)
  (index esz c : Z) :
  GenericFifo.generic_fifo_valid_count f = Some c →
  c ≤ index →
  GenericFifo.generic_fifo_select_index f v index esz = Some (false, v, f).
Proof.
  intros Hc Hge. unfold GenericFifo.generic_fifo_select_index.
  rewrite Hc. simpl.
  destruct (Z.ltb_spec index c); [lia | done].
Qed.

Lemma select_index_refused_witness :
  GenericFifo.generic_fifo_select_index generic_fifo_wrapped [x00] 2 1
  = Some (false, [x00], generic_fifo_wrapped).
Proof.
  apply (select_index_refused generic_fifo_wrapped [x00] 2 1 2).
  - vm_compute. reflexivity.
  - lia.
Defined.

(** [generic_fifo_select_index] with an index below the count whose slot
    [out_idx + index] lies before the end of the storage: the element at
    that queue position is copied out and the queue is untouched. *)
Lemma select_index_unwrapped (f : GenericFifo.generic_fifo) (v : list byte)
  (index esz c : Z) :
  generic_fifo_wf f → 0 ≤ esz →
  GenericFifo.size f * esz ≤ Z.of_nat (length (GenericFifo.buffer f)) →
  Z.of_nat (length v) = esz →
  GenericFifo.generic_fifo_valid_count f = Some c →
  0 ≤ index < c →
  GenericFifo.out_idx f + index < GenericFifo.size f →
  GenericFifo.generic_fifo_select_index f v index esz
  = Some (true,
          slot (GenericFifo.buffer f) esz (GenericFifo.out_idx f + index),
          f).
Proof.
  intros (Hn & Hi & Ho) Hesz Hmem Hv Hc Hidx Hrun.
  unfold GenericFifo.generic_fifo_select_index.
  rewrite Hc. simpl.
  destruct (Z.ltb_spec index c); [|lia].
  rewrite memcpy_whole by nia. done.
Qed.

Lemma select_index_unwrapped_witness :
  GenericFifo.generic_fifo_select_index generic_fifo_filled [x00] 2 1
  = Some (true, slot (GenericFifo.buffer generic_fifo_filled) 1 (0 + 2),
          generic_fifo_filled).
Proof.
  apply (select_index_unwrapped generic_fifo_filled [x00] 2 1 3).
  - vm_compute. repeat split; (reflexivity || discriminate).
  - lia.
  - vm_compute. discriminate.
  - reflexivity.
  - vm_compute. reflexivity.
  - lia.
  - vm_compute. reflexivity.
Defined.

(** [GetValue] with an index below the count returns the element at that
    queue position, slot [(_outIdx + index) % _size]. *)
Lemma GetValue_in_range {T : Type} (f : CircularFifo.CircularFifo T)
  (item : T) (index c : Z) :
  CircularFifo_wf f →
  CircularFifo.Count f = Some c →
  0 ≤ index < c →
  ∃ x, CircularFifo.GetValue f item index = Some (true, x)
    ∧ CircularFifo._buffer f
        !! Z.to_nat ((CircularFifo._outIdx f + index)
                     mod CircularFifo._size f) = Some x.
Proof.
  intros (Hn & Hlen & Hi & Ho) Hc Hidx.
  unfold CircularFifo.GetValue, CircularFifo.lrem, CircularFifo.array_get.
  destruct (Z.ltb_spec index 0); [lia|]. simpl.
  destruct (Z.eqb_spec (CircularFifo._size f) 0); [lia|]. simpl.
  rewrite Z.rem_mod_nonneg by lia.
  pose proof (Z.mod_pos_bound (CircularFifo._outIdx f + index)
                (CircularFifo._size f)).
  destruct (Z.ltb_spec ((CircularFifo._outIdx f + index)
                        mod CircularFifo._size f) 0); [lia|].
  destruct (lookup_lt_is_Some_2 (CircularFifo._buffer f)
              (Z.to_nat ((CircularFifo._outIdx f + index)
                         mod CircularFifo._size f))) as [x Hx]; [lia|].
  exists x. rewrite Hx. done.
Qed.

Lemma GetValue_in_range_witness :
  ∃ x, CircularFifo.GetValue
         {| CircularFifo._buffer := [x05; x02; x03; x04];
            CircularFifo._inIdx := 1; CircularFifo._outIdx := 3;
            CircularFifo._size := 4; CircularFifo._capacity := 3 |} x00 1
       = Some (true, x)
    ∧ [x05; x02; x03; x04] !! Z.to_nat ((3 + 1) mod 4) = Some x.
Proof.
  apply (GetValue_in_range
           {| CircularFifo._buffer := [x05; x02; x03; x04];
              CircularFifo._inIdx := 1; CircularFifo._outIdx := 3;
              CircularFifo._size := 4; CircularFifo._capacity := 3 |}
           x00 1 2).
  - vm_compute. repeat split; (reflexivity || discriminate).
  - vm_compute. reflexivity.
  - lia.
Defined.

(** With [sizoef] standing for [sizeof], [gfifo_peek] on a non-empty queue
    copies out the oldest element and changes nothing. *)
Lemma peek_with_sizeof (f : Gfifo.gfifo) (v : list byte) (esz : Z) :
  Gfifo.gfifo_empty f = false →
  0 ≤ Gfifo.out f →
  (Gfifo.out f + 1) * esz ≤ Z.of_nat (length (Gfifo.data f)) →
  Z.of_nat (length v) = esz →
  Gfifo.gfifo_peek esz f v esz
  = Some (true, slot (Gfifo.data f) esz (Gfifo.out f), f).
Proof.
  intros Hne Ho Hmem Hv. unfold Gfifo.gfifo_empty in Hne.
  unfold Gfifo.gfifo_peek. rewrite Hne. simpl.
  rewrite memcpy_whole by nia. done.
Qed.

Lemma peek_with_sizeof_witness :
  Gfifo.gfifo_peek 1 gfifo_one_held [x00] 1
  = Some (true, slot (Gfifo.data gfifo_one_held) 1 0, gfifo_one_held).
Proof.
  apply (peek_with_sizeof gfifo_one_held [x00] 1).
  - vm_compute. reflexivity.
  - vm_compute. discriminate.
  - vm_compute. discriminate.
  - reflexivity.
Defined.

(** On an empty queue remove, peek and throw report failure and return the
    state and the caller's variable as they were, in every variant. *)
Lemma empty_is_refused :
  (∀ (f : Gfifo.gfifo) (v : list byte) (esz n : Z),
     Gfifo.gfifo_empty f = true →
     Gfifo.gfifo_remove f v esz = Some (false, v, f)
     ∧ Gfifo.gfifo_peek n f v esz = Some (false, v, f)
     ∧ Gfifo.gfifo_throw f = (false, f))
  ∧ (∀ (f : GenericFifo.generic_fifo) (v : list byte) (esz : Z),
       GenericFifo.generic_fifo_empty f = true →
       GenericFifo.generic_fifo_remove f v esz = Some (false, v, f))
  ∧ (∀ (T : Type) (f : CircularFifo.CircularFifo T) (item : T),
       CircularFifo.IsEmpty f = true →
       CircularFifo.Remove f item = Some (false, item, f)).
Proof.
  split; [|split].
  - intros f v esz n He. unfold Gfifo.gfifo_empty in He.
    unfold Gfifo.gfifo_remove, Gfifo.gfifo_peek, Gfifo.gfifo_throw.
    by rewrite He.
  - intros f v esz He. unfold GenericFifo.generic_fifo_remove.
    by rewrite He.
  - intros T f item He. unfold CircularFifo.Remove. by rewrite He.
Qed.

Lemma empty_is_refused_witness :
  (Gfifo.gfifo_remove gfifo_drained [x00] 1 = Some (false, [x00], gfifo_drained)
   ∧ Gfifo.gfifo_peek 1 gfifo_drained [x00] 1
     = Some (false, [x00], gfifo_drained)
   ∧ Gfifo.gfifo_throw gfifo_drained = (false, gfifo_drained))
  ∧ GenericFifo.generic_fifo_remove
      (GenericFifo.generic_fifo_init zeros4 0 4) [x00] 1
    = Some (false, [x00], GenericFifo.generic_fifo_init zeros4 0 4)
  ∧ CircularFifo.Remove (CircularFifo.new x00 3) x09
    = Some (false, x09, CircularFifo.new x00 3).
Proof.
  destruct empty_is_refused as (Hg & Hq & Hc).
  split; [|split].
  - apply Hg. vm_compute. reflexivity.
  - apply Hq. vm_compute. reflexivity.
  - apply Hc. vm_compute. reflexivity.
Defined.

(** What the two unused-count operations return: the C macro, once the [;]
    its statement expression lacks is supplied (as the source has it, it
    does not compile), [size - count] (for fewer than [2^31] slots, so that
    the result fits an [int]); the C# method [_capacity - count]. *)
Lemma unused_count_values :
  (∀ f : GenericFifo.generic_fifo,
     generic_fifo_wf f → GenericFifo.size f < 2 ^ 31 →
     ∃ c, GenericFifo.generic_fifo_valid_count f = Some c
       ∧ GenericFifo.generic_fifo_unused_count f
         = Some (GenericFifo.size f - c))
  ∧ (∀ (T : Type) (f : CircularFifo.CircularFifo T),
       CircularFifo_wf f →
       CircularFifo._capacity f = CircularFifo._size f - 1 →
       ∃ c, CircularFifo.Count f = Some c
         ∧ CircularFifo.UnusedCount f
           = Some (CircularFifo._size f - 1 - c)).
Proof.
  assert (2 ^ 31 < 2 ^ 32) as H32 by done.
  split.
  - intros f Hwf Hlt. pose proof Hwf as (Hn & Hi & Ho).
    rewrite generic_fifo_count_mod by done. eexists. split; [done|].
    unfold GenericFifo.generic_fifo_unused_count.
    rewrite umod_count by done. simpl.
    pose proof (Z.mod_pos_bound
                  (GenericFifo.in_idx f - GenericFifo.out_idx f)
                  (GenericFifo.size f)).
    rewrite u32_small, to_int_small by lia. done.
  - intros T f Hwf Hcap. pose proof Hwf as (Hn & Hl & Hi & Ho).
    rewrite CircularFifo_count_mod by done. eexists. split; [done|].
    unfold CircularFifo.UnusedCount.
    rewrite CircularFifo_count_mod by done. simpl.
    pose proof (Z.mod_pos_bound
                  (CircularFifo._inIdx f - CircularFifo._outIdx f)
                  (CircularFifo._size f)).
    rewrite Hcap, u32_small by lia. done.
Qed.

Lemma unused_count_values_witness :
  (∃ c, GenericFifo.generic_fifo_valid_count generic_fifo_filled = Some c
     ∧ GenericFifo.generic_fifo_unused_count generic_fifo_filled
       = Some (GenericFifo.size generic_fifo_filled - c))
  ∧ (∃ c, CircularFifo.Count (CircularFifo.new x00 3) = Some c
       ∧ CircularFifo.UnusedCount (CircularFifo.new x00 3)
         = Some (CircularFifo._size (CircularFifo.new x00 3) - 1 - c)).
Proof.
  destruct unused_count_values as (Hq & Hc).
  split.
  - apply Hq.
    + vm_compute. repeat split; (reflexivity || discriminate).
    + vm_compute. reflexivity.
  - apply Hc.
    + vm_compute. repeat split; (reflexivity || discriminate).
    + vm_compute. reflexivity.
Defined.

(** Reset (C) and [Clear] (C#) leave an empty queue of count 0 and keep the
    storage and the slot count. *)
Lemma reset_empties :
  (∀ f : GenericFifo.generic_fifo,
     0 < GenericFifo.size f < 2 ^ 32 →
     let f' := GenericFifo.generic_fifo_reset f in
     GenericFifo.generic_fifo_valid_count f' = Some 0
     ∧ GenericFifo.generic_fifo_empty f' = true
     ∧ GenericFifo.buffer f' = GenericFifo.buffer f
     ∧ GenericFifo.size f' = GenericFifo.size f)
  ∧ (∀ (T : Type) (f : CircularFifo.CircularFifo T),
       0 < CircularFifo._size f < 2 ^ 32 →
       let f' := CircularFifo.Clear f in
       CircularFifo.Count f' = Some 0
       ∧ CircularFifo.IsEmpty f' = true
       ∧ CircularFifo._buffer f' = CircularFifo._buffer f
       ∧ CircularFifo._size f' = CircularFifo._size f).
Proof.
  split.
  - intros f Hn f'. repeat split.
    unfold GenericFifo.generic_fifo_valid_count. simpl.
    change (u32 (0 - 0)) with 0. rewrite Z.add_0_l, u32_small by lia.
    rewrite umod_pos by lia. by rewrite Z_mod_same_full.
  - intros T f Hn f'. repeat split.
    unfold CircularFifo.Count. simpl.
    change (u32 (0 - 0)) with 0. rewrite Z.add_0_l, u32_small by lia.
    rewrite umod_pos by lia. by rewrite Z_mod_same_full.
Qed.

Lemma reset_empties_witness :
  (GenericFifo.generic_fifo_valid_count
     (GenericFifo.generic_fifo_reset generic_fifo_wrapped) = Some 0
   ∧ GenericFifo.generic_fifo_empty
       (GenericFifo.generic_fifo_reset generic_fifo_wrapped) = true
   ∧ GenericFifo.buffer (GenericFifo.generic_fifo_reset generic_fifo_wrapped)
     = GenericFifo.buffer generic_fifo_wrapped
   ∧ GenericFifo.size (GenericFifo.generic_fifo_reset generic_fifo_wrapped)
     = GenericFifo.size generic_fifo_wrapped)
  ∧ (CircularFifo.Count (CircularFifo.Clear (CircularFifo.new x00 3)) = Some 0
     ∧ CircularFifo.IsEmpty (CircularFifo.Clear (CircularFifo.new x00 3))
       = true
     ∧ CircularFifo._buffer (CircularFifo.Clear (CircularFifo.new x00 3))
       = CircularFifo._buffer (CircularFifo.new x00 3)
     ∧ CircularFifo._size (CircularFifo.Clear (CircularFifo.new x00 3))
       = CircularFifo._size (CircularFifo.new x00 3)).
Proof.
  destruct reset_empties as (Hq & Hc).
  split.
  - apply Hq. vm_compute. split; reflexivity.
  - apply Hc. vm_compute. split; reflexivity.
Defined.

(** Eight slots under the mask convention: seven inserts succeed, the
    eighth is refused; seven removes yield the values in order, the eighth
    is refused. *)
Lemma mask_scenario_eight_slots :
  gfifo_trace
    [CInsert [x01] 1; CInsert [x02] 1; CInsert [x03] 1; CInsert [x04] 1;
     CInsert [x05] 1; CInsert [x06] 1; CInsert [x07] 1; CInsert [x08] 1;
     CRemove [x00] 1; CRemove [x00] 1; CRemove [x00] 1; CRemove [x00] 1;
     CRemove [x00] 1; CRemove [x00] 1; CRemove [x00] 1; CRemove [xff] 1]
    (Gfifo.gfifo_init [x00; x00; x00; x00; x00; x00; x00; x00] 8)
  = Some [AStatus true; AStatus true; AStatus true; AStatus true;
          AStatus true; AStatus true; AStatus true; AStatus false;
          AValue true [x01]; AValue true [x02]; AValue true [x03];
          AValue true [x04]; AValue true [x05]; AValue true [x06];
          AValue true [x07]; AValue false [xff]].
Proof. vm_compute. reflexivity. Qed.

(** What an unchecked capacity leads to: with capacity 0 every later
    [% size] of [generic_fifo] divides by zero, and a [gfifo] of 3 slots
    (mask 2) finds itself full before the first insert. *)
Lemma invalid_capacity_consequences :
  GenericFifo.generic_fifo_full (GenericFifo.generic_fifo_init [] 0 0) = None
  ∧ GenericFifo.generic_fifo_valid_count
      (GenericFifo.generic_fifo_init [] 0 0) = None
  ∧ GenericFifo.generic_fifo_insert
      (GenericFifo.generic_fifo_init [] 0 0) [x01] 1 = None
  ∧ Gfifo.gfifo_full (Gfifo.gfifo_init [x00; x00; x00] 3) = true
  ∧ Gfifo.gfifo_insert (Gfifo.gfifo_init [x00; x00; x00] 3) [x01] 1
    = Some (false, Gfifo.gfifo_init [x00; x00; x00] 3).
Proof. do 4 (split; [vm_compute; reflexivity|]). vm_compute. reflexivity. Qed.

(** ** Buffer states as queues *)

Lemma ring_contents_length {A : Type} (rd : Z → A) (out count size : Z) :
  length (ring_contents rd out count size) = Z.to_nat count.
Proof. unfold ring_contents. by rewrite length_fmap, length_seqZ. Qed.

Lemma ring_contents_lookup {A : Type} (rd : Z → A) (out count size : Z)
  (k : nat) :
  Z.of_nat k < count →
  ring_contents rd out count size !! k
  = Some (rd ((out + Z.of_nat k) mod size)).
Proof.
  intros Hk. unfold ring_contents.
  by rewrite list_lookup_fmap, lookup_seqZ_lt.
Qed.

Lemma mod_add_inj (n out k c : Z) :
  0 ≤ k < n → 0 ≤ c < n →
  (out + k) mod n = (out + c) mod n → k = c.
Proof.
  intros Hk Hc Heq.
  assert ((k - c) mod n = 0) as H0.
  { replace (k - c) with ((out + k) - (out + c)) by lia.
    rewrite Zminus_mod, Heq, Z.sub_diag. apply Z.mod_0_l. lia. }
  rewrite mod_diff in H0 by done.
  destruct (Z.ltb_spec k c); lia.
Qed.

Lemma mod_add_count (n i o : Z) :
  0 ≤ i < n → (o + (i - o) mod n) mod n = i.
Proof.
  intros Hi. rewrite Z.add_mod_idemp_r by lia.
  replace (o + (i - o)) with i by lia. by apply Z.mod_small.
Qed.

(** Writing the slot behind the newest element appends to the queue. *)
Lemma ring_contents_snoc {A : Type} (rd rd' : Z → A) (out count size : Z) :
  0 ≤ out < size → 0 ≤ count < size →
  (∀ j, 0 ≤ j < size → j ≠ (out + count) mod size → rd' j = rd j) →
  ring_contents rd' out (count + 1) size
  = ring_contents rd out count size ++ [rd' ((out + count) mod size)].
Proof.
  intros Ho Hc Hframe. unfold ring_contents.
  rewrite seqZ_app by lia. rewrite fmap_app.
  assert (seqZ (0 + count) 1 = [count]) as ->
    by (rewrite seqZ_cons by lia; rewrite (seqZ_nil _ (Z.pred 1)) by lia;
        f_equal; lia).
  simpl. f_equal.
  apply list_fmap_ext. intros i k Hk.
  apply lookup_seqZ in Hk as (-> & Hi). apply Hframe.
  - apply Z.mod_pos_bound. lia.
  - intros Heq. apply mod_add_inj in Heq; lia.
Qed.

(** Advancing the read cursor drops the oldest element. *)
Lemma ring_contents_pop {A : Type} (rd : Z → A) (out count size : Z) :
  0 ≤ out < size → 0 < count →
  ring_contents rd out count size
  = rd out :: ring_contents rd ((out + 1) mod size) (count - 1) size.
Proof.
  intros Ho Hc. unfold ring_contents.
  rewrite seqZ_cons by lia. rewrite fmap_cons. f_equal.
  - f_equal. rewrite Z.add_0_r. apply Z.mod_small. lia.
  - replace (Z.succ 0) with (1 + 0) by lia.
    rewrite <- fmap_add_seqZ, <- list_fmap_compose.
    replace (Z.pred count) with (count - 1) by lia.
    apply list_fmap_ext. intros i k _. simpl. f_equal.
    rewrite Z.add_mod_idemp_l by lia. f_equal. lia.
Qed.

Lemma ring_contents_ext {A : Type} (rd rd' : Z → A) (out count size : Z) :
  0 < size →
  (∀ j, 0 ≤ j < size → rd' j = rd j) →
  ring_contents rd' out count size = ring_contents rd out count size.
Proof.
  intros Hs Hext. unfold ring_contents.
  apply list_fmap_ext. intros i k _. apply Hext.
  by apply Z.mod_pos_bound.
Qed.

(** One insert and one remove of [generic_fifo], on the queue of elements
    the state stands for. *)
Lemma generic_fifo_insert_queue (esz : Z) (f : GenericFifo.generic_fifo)
  (v : list byte) :
  generic_fifo_wf f → 0 ≤ esz →
  GenericFifo.size f * esz ≤ Z.of_nat (length (GenericFifo.buffer f)) →
  Z.of_nat (length v) = esz →
  let q := generic_fifo_contents esz f in
  let r := Z.of_nat (length q) <? GenericFifo.size f - 1 in
  ∃ f', GenericFifo.generic_fifo_insert f v esz = Some (r, f')
    ∧ generic_fifo_wf f'
    ∧ GenericFifo.size f' = GenericFifo.size f
    ∧ length (GenericFifo.buffer f') = length (GenericFifo.buffer f)
    ∧ generic_fifo_contents esz f' = if r then q ++ [v] else q.
Proof.
  intros Hwf Hesz Hmem Hv q r. subst q r.
  pose proof Hwf as (Hn & Hi & Ho).
  pose proof (Z.mod_pos_bound
                (GenericFifo.in_idx f - GenericFifo.out_idx f)
                (GenericFifo.size f) ltac:(lia)) as Hc.
  assert (Z.of_nat (length (generic_fifo_contents esz f))
          = (GenericFifo.in_idx f - GenericFifo.out_idx f)
            mod GenericFifo.size f) as ->
    by (unfold generic_fifo_contents; rewrite ring_contents_length; lia).
  unfold GenericFifo.generic_fifo_insert.
  rewrite generic_fifo_full_mod by done. simpl.
  pose proof (ring_full_count (GenericFifo.size f) (GenericFifo.in_idx f)
                (GenericFifo.out_idx f) Hi Ho) as Hfull.
  destruct (Z.eqb_spec
              ((GenericFifo.in_idx f + 1) mod GenericFifo.size f)
              (GenericFifo.out_idx f)) as [E | E]; simpl.
  - destruct (Z.ltb_spec
                ((GenericFifo.in_idx f - GenericFifo.out_idx f)
                 mod GenericFifo.size f) (GenericFifo.size f - 1));
      [apply Hfull in E; lia|].
    exists f. by repeat (split; [done|]).
  - destruct (Z.ltb_spec
                ((GenericFifo.in_idx f - GenericFifo.out_idx f)
                 mod GenericFifo.size f) (GenericFifo.size f - 1));
      [|exfalso; apply E, Hfull; lia].
    destruct (memcpy (GenericFifo.buffer f) (GenericFifo.in_idx f * esz)
                v 0 esz) as [d|] eqn:Hd;
      [|exfalso; unfold memcpy in Hd; rewrite decide_True in Hd;
        [done | nia]].
    simpl. rewrite umod_next by done. simpl.
    eexists. split; [done|].
    pose proof (Z.mod_pos_bound (GenericFifo.in_idx f + 1)
                  (GenericFifo.size f)).
    split; [repeat split; simpl; (done || lia)|].
    split; [done|]. split; [by eapply memcpy_length|].
    unfold generic_fifo_contents. simpl.
    rewrite ring_insert_count by done.
    rewrite (ring_contents_snoc (slot (GenericFifo.buffer f) esz));
      [|done|lia|].
    + rewrite mod_add_count by done.
      rewrite (slot_memcpy _ _ _ _ _ Hd), take_ge by lia. done.
    + intros j Hj Hne. rewrite mod_add_count in Hne by done.
      apply (slot_memcpy_frame _ _ _ _ _ _ _ _ Hd); [lia..|]. nia.
Qed.

Lemma generic_fifo_remove_queue (esz : Z) (f : GenericFifo.generic_fifo)
  (v : list byte) :
  generic_fifo_wf f → 0 ≤ esz →
  GenericFifo.size f * esz ≤ Z.of_nat (length (GenericFifo.buffer f)) →
  Z.of_nat (length v) = esz →
  ∃ f', GenericFifo.generic_fifo_remove f v esz
        = Some (match generic_fifo_contents esz f with
                | [] => (false, v, f')
                | x :: _ => (true, x, f')
                end)
    ∧ generic_fifo_wf f'
    ∧ GenericFifo.size f' = GenericFifo.size f
    ∧ GenericFifo.buffer f' = GenericFifo.buffer f
    ∧ generic_fifo_contents esz f' = tail (generic_fifo_contents esz f).
Proof.
  intros Hwf Hesz Hmem Hv.
  pose proof Hwf as (Hn & Hi & Ho).
  unfold GenericFifo.generic_fifo_remove, GenericFifo.generic_fifo_empty.
  unfold generic_fifo_contents at 1 3.
  pose proof (mod_diff (GenericFifo.size f) (GenericFifo.in_idx f)
                (GenericFifo.out_idx f) Hi Ho) as Hcnt.
  destruct (Z.eqb_spec (GenericFifo.in_idx f) (GenericFifo.out_idx f))
    as [E | E]; simpl.
  - exists f. rewrite E, Z.sub_diag, Z.mod_0_l by lia.
    unfold ring_contents. rewrite seqZ_nil by lia. simpl.
    repeat (split; [done|]).
    unfold generic_fifo_contents, ring_contents.
    rewrite E, Z.sub_diag, Z.mod_0_l by lia. by rewrite seqZ_nil.
  - assert (0 < (GenericFifo.in_idx f - GenericFifo.out_idx f)
                mod GenericFifo.size f) as Hpos
      by (rewrite Hcnt; destruct (Z.ltb_spec (GenericFifo.in_idx f)
                                    (GenericFifo.out_idx f)); lia).
    rewrite ring_contents_pop by done. simpl.
    rewrite memcpy_whole by nia. simpl.
    rewrite umod_next by done. simpl.
    eexists. split; [done|].
    pose proof (Z.mod_pos_bound (GenericFifo.out_idx f + 1)
                  (GenericFifo.size f)).
    split; [repeat split; simpl; (done || lia)|].
    do 2 (split; [done|]).
    unfold generic_fifo_contents. simpl.
    by rewrite ring_remove_count.
Qed.

Lemma generic_fifo_contents_length (esz : Z) (f : GenericFifo.generic_fifo) :
  generic_fifo_wf f →
  Z.of_nat (length (generic_fifo_contents esz f))
  = (GenericFifo.in_idx f - GenericFifo.out_idx f) mod GenericFifo.size f.
Proof.
  intros (Hn & Hi & Ho).
  pose proof (Z.mod_pos_bound
                (GenericFifo.in_idx f - GenericFifo.out_idx f)
                (GenericFifo.size f) ltac:(lia)).
  unfold generic_fifo_contents. rewrite ring_contents_length. lia.
Qed.

Lemma generic_fifo_init_contents (esz : Z) (buf : list byte) (flag size : Z) :
  0 < size ≤ 2 ^ 31 →
  generic_fifo_contents esz (GenericFifo.generic_fifo_init buf flag size) = [].
Proof.
  intros Hn. assert (2 ^ 31 < 2 ^ 32) by done.
  unfold generic_fifo_contents, GenericFifo.generic_fifo_init.
  cbn [GenericFifo.buffer GenericFifo.in_idx GenericFifo.out_idx
       GenericFifo.size].
  rewrite u32_small, Z.sub_diag, Z.mod_0_l by lia. done.
Qed.

(** One call of [generic_fifo] against the same call on the list. *)
Lemma generic_fifo_call_queue (esz : Z) (f : GenericFifo.generic_fifo)
  (c : call) :
  generic_fifo_wf f → 0 ≤ esz →
  GenericFifo.size f * esz ≤ Z.of_nat (length (GenericFifo.buffer f)) →
  generic_fifo_call_fits esz c →
  ∃ f', generic_fifo_call f c
        = Some (fst (queue_call (GenericFifo.size f - 1,
                                 generic_fifo_contents esz f) c), f')
    ∧ generic_fifo_wf f'
    ∧ GenericFifo.size f' * esz ≤ Z.of_nat (length (GenericFifo.buffer f'))
    ∧ snd (queue_call (GenericFifo.size f - 1,
                       generic_fifo_contents esz f) c)
      = (GenericFifo.size f' - 1, generic_fifo_contents esz f').
Proof.
  intros Hwf Hesz Hmem Hfit.
  pose proof Hwf as (Hn & Hi & Ho).
  pose proof (generic_fifo_contents_length esz f Hwf) as Hlen.
  assert (2 ^ 31 < 2 ^ 32) as H32 by done.
  destruct c as [buf flag size | v e | v e | | |]; simpl in Hfit |- *.
  - destruct Hfit as (Hs & Hb).
    eexists. split; [done|].
    split; [by apply generic_fifo_init_wf|].
    simpl. rewrite u32_small by lia. split; [done|].
    by rewrite generic_fifo_init_contents.
  - destruct Hfit as (-> & Hv).
    destruct (generic_fifo_insert_queue esz f v Hwf Hesz Hmem Hv)
      as (f' & Hins & Hwf' & Hs' & Hl' & Hq').
    rewrite Hins. simpl. exists f'.
    destruct (Z.of_nat (length (generic_fifo_contents esz f))
              <? GenericFifo.size f - 1); simpl;
      (split; [done|]); (split; [done|]);
      (split; [by rewrite Hs', Hl'|]); by rewrite Hs', Hq'.
  - destruct Hfit as (-> & Hv).
    destruct (generic_fifo_remove_queue esz f v Hwf Hesz Hmem Hv)
      as (f' & Hrem & Hwf' & Hs' & Hb' & Hq').
    rewrite Hrem. exists f'.
    destruct (generic_fifo_contents esz f) as [|x q'] eqn:Hq; simpl;
      (split; [done|]); (split; [done|]);
      (split; [by rewrite Hs', Hb'|]); by rewrite Hs', Hq'.
  - exists f. repeat (split; [done|]). 
    split; [|done]. do 3 f_equal. rewrite Hlen.
    unfold GenericFifo.generic_fifo_empty. rewrite mod_diff by done.
    destruct (Z.eqb_spec (GenericFifo.in_idx f) (GenericFifo.out_idx f)),
      (Z.ltb_spec (GenericFifo.in_idx f) (GenericFifo.out_idx f));
      symmetry; (apply Z.eqb_eq || apply Z.eqb_neq); lia.
  - rewrite generic_fifo_full_mod by done. simpl.
    exists f. repeat (split; [done|]).
    split; [|done]. do 3 f_equal. rewrite Hlen.
    pose proof (ring_full_count _ _ _ Hi Ho) as Hfull.
    destruct (Z.eqb_spec
                ((GenericFifo.in_idx f + 1) mod GenericFifo.size f)
                (GenericFifo.out_idx f)) as [E|E]; symmetry;
      [apply Z.eqb_eq | apply Z.eqb_neq]; tauto.
  - rewrite generic_fifo_count_mod by done. simpl.
    exists f. repeat (split; [done|]).
    split; [|done]. by rewrite Hlen.
Qed.

Lemma generic_fifo_trace_queue (esz : Z) (cs : list call)
  (f : GenericFifo.generic_fifo) :
  generic_fifo_wf f → 0 ≤ esz →
  GenericFifo.size f * esz ≤ Z.of_nat (length (GenericFifo.buffer f)) →
  Forall (generic_fifo_call_fits esz) cs →
  generic_fifo_trace cs f
  = Some (queue_trace cs (GenericFifo.size f - 1,
                          generic_fifo_contents esz f)).
Proof.
  intros Hwf Hesz Hmem Hcs. revert f Hwf Hmem.
  induction Hcs as [|c cs Hc Hcs IH]; intros f Hwf Hmem; [done|].
  cbn [generic_fifo_trace queue_trace].
  destruct (generic_fifo_call_queue esz f c Hwf Hesz Hmem Hc)
    as (f' & -> & Hwf' & Hmem' & Hq').
  destruct (queue_call (GenericFifo.size f - 1, generic_fifo_contents esz f)
              c) as [a s'].
  cbn [fst snd] in *. subst s'. simpl.
  by rewrite (IH f' Hwf' Hmem').
Qed.

(** [generic_fifo] is a bounded FIFO queue: whatever sequence of init,
    insert, remove, is-empty, is-full and count calls is made on a fresh
    queue of [size] slots, every call runs and answers as the same call on a
    list that holds at most [size - 1] elements, inserting at the back and
    removing at the front. *)
Theorem generic_fifo_refines_queue (esz size flag : Z) (buf : list byte)
  (cs : list call) :
  0 < size ≤ 2 ^ 31 → 0 ≤ esz →
  size * esz ≤ Z.of_nat (length buf) →
  Forall (generic_fifo_call_fits esz) cs →
  generic_fifo_trace cs (GenericFifo.generic_fifo_init buf flag size)
  = Some (queue_trace cs (size - 1, [])).
Proof.
  intros Hn Hesz Hmem Hcs. assert (2 ^ 31 < 2 ^ 32) by done.
  rewrite (generic_fifo_trace_queue esz); [|by apply generic_fifo_init_wf
    |done|simpl; by rewrite u32_small by lia|done].
  rewrite generic_fifo_init_contents by done. simpl.
  by rewrite u32_small by lia.
Qed.

Lemma generic_fifo_refines_queue_witness :
  generic_fifo_trace
    [CInsert [x01] 1; CInsert [x02] 1; CInsert [x03] 1; CFull; CRemove [x00] 1;
     CInsert [x04] 1; CCount; CRemove [x00] 1; CRemove [x00] 1;
     CRemove [x00] 1; CEmpty; CRemove [x00] 1]
    (GenericFifo.generic_fifo_init [x00; x00; x00] 0 3)
  = Some (queue_trace
            [CInsert [x01] 1; CInsert [x02] 1; CInsert [x03] 1; CFull;
             CRemove [x00] 1; CInsert [x04] 1; CCount; CRemove [x00] 1;
             CRemove [x00] 1; CRemove [x00] 1; CEmpty; CRemove [x00] 1]
            (3 - 1, [])).
Proof.
  apply (generic_fifo_refines_queue 1 3 0 [x00; x00; x00]).
  - lia.
  - lia.
  - simpl. lia.
  - repeat constructor.
Defined.

(** The same for the mask-based [gfifo] and a power-of-two slot count. *)
Theorem gfifo_refines_queue (esz size : Z) (buf : list byte)
  (cs : list call) :
  pow2_u32 size → 0 ≤ esz →
  size * esz ≤ Z.of_nat (length buf) →
  Forall (gfifo_call_fits esz) cs →
  gfifo_trace cs (Gfifo.gfifo_init buf size)
  = Some (queue_trace cs (size - 1, [])).
Proof.
  intros Hp Hesz Hmem Hcs.
  rewrite (trace_in_step cs _ (GenericFifo.generic_fifo_init buf 0 size)).
  - apply (generic_fifo_refines_queue esz);
      [by apply pow2_u32_bounds|done..|].
    eapply Forall_impl; [exact Hcs|].
    intros [b fl s| | | | |]; simpl; try done.
    intros (Hs%pow2_u32_bounds & Hb). done.
  - by apply gfifo_init_wf.
  - apply init_in_step.
  - eapply Forall_impl; [exact Hcs|].
    intros [b fl s| | | | |]; simpl; try done. by intros (Hs & _).
Qed.

Lemma gfifo_refines_queue_witness :
  gfifo_trace
    [CInsert [x01] 1; CInsert [x02] 1; CInsert [x03] 1; CInsert [x04] 1;
     CFull; CRemove [x00] 1; CInsert [x05] 1; CCount; CRemove [x00] 1;
     CRemove [x00] 1; CRemove [x00] 1; CEmpty; CRemove [x00] 1]
    (Gfifo.gfifo_init zeros4 4)
  = Some (queue_trace
            [CInsert [x01] 1; CInsert [x02] 1; CInsert [x03] 1;
             CInsert [x04] 1; CFull; CRemove [x00] 1; CInsert [x05] 1;
             CCount; CRemove [x00] 1; CRemove [x00] 1; CRemove [x00] 1;
             CEmpty; CRemove [x00] 1]
            (4 - 1, [])).
Proof.
  apply (gfifo_refines_queue 1 4 zeros4).
  - exists 2. split; [lia | reflexivity].
  - lia.
  - simpl. lia.
  - repeat constructor.
Defined.

(** ** [CircularFifo<T>] as a queue *)

Section CircularFifoQueue.

Context {T : Type} (default : T).
Implicit Types (f : CircularFifo.CircularFifo T) (q : list T) (x : T).

Lemma CircularFifo_holds_length f q :
  CircularFifo_holds f q →
  Z.of_nat (length q)
  = (CircularFifo._inIdx f - CircularFifo._outIdx f) mod CircularFifo._size f.
Proof.
  intros ((Hn & Hl & Hi & Ho) & _ & Hq).
  pose proof (Z.mod_pos_bound
                (CircularFifo._inIdx f - CircularFifo._outIdx f)
                (CircularFifo._size f) ltac:(lia)).
  rewrite <- (length_fmap Some q), Hq, ring_contents_length. lia.
Qed.

Lemma CircularFifo_holds_lookup f q (k : nat) x :
  CircularFifo_holds f q → q !! k = Some x →
  CircularFifo._buffer f
    !! Z.to_nat ((CircularFifo._outIdx f + Z.of_nat k)
                 mod CircularFifo._size f) = Some x.
Proof.
  intros Hh Hk. pose proof (CircularFifo_holds_length f q Hh) as Hlen.
  destruct Hh as (_ & _ & Hq).
  pose proof (lookup_lt_Some _ _ _ Hk) as Hlt.
  assert ((Some <$> q) !! k = Some (Some x)) as Hk'
    by (by rewrite list_lookup_fmap, Hk).
  rewrite Hq, ring_contents_lookup in Hk' by lia. by injection Hk'.
Qed.

Lemma CircularFifo_new_holds (capacity : Z) :
  0 ≤ capacity < 2 ^ 31 →
  CircularFifo_holds (CircularFifo.new default capacity) [].
Proof.
  intros Hc. assert (2 ^ 31 < 2 ^ 32) by done.
  split; [by apply CircularFifo_new_wf|].
  unfold CircularFifo.new, ring_contents.
  cbn [CircularFifo._buffer CircularFifo._inIdx CircularFifo._outIdx
       CircularFifo._size CircularFifo._capacity].
  rewrite u32_small, Z.sub_diag, Z.mod_0_l by lia. split; [lia | done].
Qed.

Lemma CircularFifo_insert_queue f q x :
  CircularFifo_holds f q →
  let r := Z.of_nat (length q) <? CircularFifo._capacity f in
  ∃ f', CircularFifo.Insert f x = Some (r, f')
    ∧ CircularFifo._capacity f' = CircularFifo._capacity f
    ∧ CircularFifo_holds f' (if r then q ++ [x] else q).
Proof.
  intros Hh r. subst r.
  rewrite (CircularFifo_holds_length f q Hh).
  pose proof Hh as (Hwf & Hcap & Hq).
  pose proof Hwf as (Hn & Hl & Hi & Ho).
  pose proof (Z.mod_pos_bound
                (CircularFifo._inIdx f - CircularFifo._outIdx f)
                (CircularFifo._size f) ltac:(lia)) as Hc.
  pose proof (ring_full_count _ _ _ Hi Ho) as Hfull.
  unfold CircularFifo.Insert, CircularFifo.IsFull.
  rewrite umod_next by done. simpl. rewrite Hcap.
  destruct (Z.eqb_spec
              ((CircularFifo._inIdx f + 1) mod CircularFifo._size f)
              (CircularFifo._outIdx f)) as [E | E].
  - destruct (Z.ltb_spec
                ((CircularFifo._inIdx f - CircularFifo._outIdx f)
                 mod CircularFifo._size f) (CircularFifo._size f - 1));
      [apply Hfull in E; lia|].
    by exists f.
  - destruct (Z.ltb_spec
                ((CircularFifo._inIdx f - CircularFifo._outIdx f)
                 mod CircularFifo._size f) (CircularFifo._size f - 1));
      [|exfalso; apply E, Hfull; lia].
    unfold CircularFifo.array_set.
    replace ((0 <=? CircularFifo._inIdx f)
             && (CircularFifo._inIdx f
                 <? Z.of_nat (length (CircularFifo._buffer f)))) with true
      by (symmetry; apply andb_true_iff; split;
          [apply Z.leb_le | apply Z.ltb_lt]; lia).
    simpl. eexists. split; [done|]. split; [done|].
    pose proof (Z.mod_pos_bound (CircularFifo._inIdx f + 1)
                  (CircularFifo._size f) ltac:(lia)).
    split; [|split; [done|]].
    { repeat split; simpl; rewrite ?length_insert; (done || lia). }
    simpl. rewrite ring_insert_count by done.
    rewrite (ring_contents_snoc
               (λ k, CircularFifo._buffer f !! Z.to_nat k)); [|done|lia|].
    + rewrite mod_add_count by done.
      rewrite list_lookup_insert_eq by lia.
      by rewrite fmap_app, Hq.
    + intros j Hj Hne. rewrite mod_add_count in Hne by done.
      apply list_lookup_insert_ne. lia.
Qed.

(** The state after a successful remove, and the element removed. *)
Lemma CircularFifo_pop f x q :
  CircularFifo_holds f (x :: q) →
  CircularFifo._inIdx f ≠ CircularFifo._outIdx f
  ∧ CircularFifo.array_get (CircularFifo._buffer f) (CircularFifo._outIdx f)
    = Some x
  ∧ CircularFifo_holds
      {| CircularFifo._buffer := CircularFifo._buffer f;
         CircularFifo._inIdx := CircularFifo._inIdx f;
         CircularFifo._outIdx :=
           (CircularFifo._outIdx f + 1) mod CircularFifo._size f;
         CircularFifo._size := CircularFifo._size f;
         CircularFifo._capacity := CircularFifo._capacity f |} q.
Proof.
  intros Hh. pose proof (CircularFifo_holds_length _ _ Hh) as Hlen.
  pose proof Hh as (Hwf & Hcap & Hq).
  pose proof Hwf as (Hn & Hl & Hi & Ho).
  simpl in Hlen.
  assert (CircularFifo._inIdx f ≠ CircularFifo._outIdx f) as Hne.
  { intros E. rewrite E, Z.sub_diag, Z.mod_0_l in Hlen; lia. }
  split; [done|].
  rewrite ring_contents_pop in Hq by lia.
  rewrite fmap_cons in Hq. injection Hq as Hx Hq.
  split.
  - unfold CircularFifo.array_get.
    destruct (Z.ltb_spec (CircularFifo._outIdx f) 0); [lia | done].
  - pose proof (Z.mod_pos_bound (CircularFifo._outIdx f + 1)
                  (CircularFifo._size f) ltac:(lia)).
    split; [repeat split; simpl; (done || lia)|].
    split; [done|]. simpl. by rewrite ring_remove_count.
Qed.

Lemma CircularFifo_holds_nil f :
  CircularFifo_holds f [] →
  CircularFifo._inIdx f = CircularFifo._outIdx f.
Proof.
  intros Hh. pose proof (CircularFifo_holds_length _ _ Hh) as Hlen.
  destruct Hh as ((Hn & Hl & Hi & Ho) & _).
  simpl in Hlen. rewrite mod_diff in Hlen by done.
  destruct (Z.ltb_spec (CircularFifo._inIdx f) (CircularFifo._outIdx f));
    lia.
Qed.

Lemma CircularFifo_remove_queue f q x :
  CircularFifo_holds f q →
  ∃ f', CircularFifo.Remove f x
        = Some (match q with
                | [] => (false, x, f')
                | y :: _ => (true, y, f')
                end)
    ∧ CircularFifo._capacity f' = CircularFifo._capacity f
    ∧ CircularFifo_holds f' (tail q).
Proof.
  intros Hh. unfold CircularFifo.Remove, CircularFifo.IsEmpty.
  destruct q as [|y q].
  - rewrite (CircularFifo_holds_nil f Hh), Z.eqb_refl. by exists f.
  - destruct (CircularFifo_pop f y q Hh) as (Hne & Hget & Hh').
    destruct (Z.eqb_spec (CircularFifo._inIdx f) (CircularFifo._outIdx f));
      [done|].
    rewrite Hget. simpl.
    destruct Hh as ((Hn & _ & _ & Ho) & _).
    rewrite umod_next by done. simpl. eexists. by split.
Qed.

Lemma CircularFifo_remove0_queue f q :
  CircularFifo_holds f q →
  ∃ f', CircularFifo.Remove0 f
        = Some (match q with [] => false | _ :: _ => true end, f')
    ∧ CircularFifo._capacity f' = CircularFifo._capacity f
    ∧ CircularFifo_holds f' (tail q).
Proof.
  intros Hh. unfold CircularFifo.Remove0, CircularFifo.IsEmpty.
  destruct q as [|y q].
  - rewrite (CircularFifo_holds_nil f Hh), Z.eqb_refl. by exists f.
  - destruct (CircularFifo_pop f y q Hh) as (Hne & Hget & Hh').
    destruct (Z.eqb_spec (CircularFifo._inIdx f) (CircularFifo._outIdx f));
      [done|].
    destruct Hh as ((Hn & _ & _ & Ho) & _).
    rewrite umod_next by done. simpl. eexists. by split.
Qed.

Lemma GetAll_for_queue f q (n : nat) (i : nat) (ret : list T) :
  CircularFifo_holds f q →
  length ret = length q → (i + n)%nat = length q →
  CircularFifo.GetAll_for f n (Z.of_nat i) ret
  = Some (take i ret ++ drop i q).
Proof.
  intros Hh. revert i ret.
  induction n as [|n IH]; intros i ret Hret Hin; simpl.
  - rewrite take_ge, drop_ge by lia. by rewrite app_nil_r.
  - destruct (lookup_lt_is_Some_2 q i) as [x Hx]; [lia|].
    pose proof (CircularFifo_holds_lookup f q i x Hh Hx) as Hb.
    pose proof Hh as ((Hn & Hl & Hi & Ho) & _).
    unfold CircularFifo.lrem.
    destruct (Z.eqb_spec (CircularFifo._size f) 0); [lia|]. simpl.
    rewrite Z.rem_mod_nonneg by lia.
    pose proof (Z.mod_pos_bound (CircularFifo._outIdx f + Z.of_nat i)
                  (CircularFifo._size f) ltac:(lia)).
    unfold CircularFifo.array_get at 1.
    destruct (Z.ltb_spec ((CircularFifo._outIdx f + Z.of_nat i)
                          mod CircularFifo._size f) 0); [lia|].
    rewrite Hb. simpl. unfold CircularFifo.array_set.
    replace ((0 <=? Z.of_nat i) && (Z.of_nat i <? Z.of_nat (length ret)))
      with true
      by (symmetry; apply andb_true_iff; split;
          [apply Z.leb_le | apply Z.ltb_lt]; lia).
    simpl. rewrite Nat2Z.id.
    replace (Z.of_nat i + 1) with (Z.of_nat (S i)) by lia.
    rewrite IH by (rewrite ?length_insert; lia).
    rewrite (take_S_r _ _ x) by (apply list_lookup_insert_eq; lia).
    rewrite take_insert_ge by lia.
    rewrite (drop_S q x i) by done. by rewrite <- app_assoc.
Qed.

Lemma CircularFifo_getall_queue f q :
  CircularFifo_holds f q → CircularFifo.GetAll default f = Some q.
Proof.
  intros Hh. pose proof (CircularFifo_holds_length f q Hh) as Hlen.
  unfold CircularFifo.GetAll.
  pose proof Hh as (Hwf & Hrest).
  rewrite CircularFifo_count_mod by done. simpl.
  rewrite <- Hlen, Nat2Z.id, length_replicate.
  rewrite (GetAll_for_queue f q (length q) 0);
    [done | done | by rewrite length_replicate | done].
Qed.

Lemma RemoveAll_for_queue f q (i : nat) (ret : list T) :
  CircularFifo_holds f q →
  length ret = (i + length q)%nat →
  ∃ f', CircularFifo.RemoveAll_for f (length q) (Z.of_nat i) ret
        = Some (take i ret ++ q, f')
    ∧ CircularFifo._capacity f' = CircularFifo._capacity f
    ∧ CircularFifo_holds f' [].
Proof.
  revert f i ret. induction q as [|x q IH]; intros f i ret Hh Hret; simpl.
  - exists f. rewrite take_ge, app_nil_r by (simpl in Hret; lia). done.
  - simpl in Hret.
    destruct (lookup_lt_is_Some_2 ret i) as [item Hitem]; [lia|].
    unfold CircularFifo.array_get at 1.
    destruct (Z.ltb_spec (Z.of_nat i) 0); [lia|].
    rewrite Nat2Z.id, Hitem. simpl.
    destruct (CircularFifo_remove_queue f (x :: q) item Hh)
      as (f1 & -> & Hcap1 & Hh1).
    simpl. unfold CircularFifo.array_set.
    replace ((0 <=? Z.of_nat i) && (Z.of_nat i <? Z.of_nat (length ret)))
      with true
      by (symmetry; apply andb_true_iff; split;
          [apply Z.leb_le | apply Z.ltb_lt]; lia).
    simpl. rewrite Nat2Z.id.
    replace (Z.of_nat i + 1) with (Z.of_nat (S i)) by lia.
    destruct (IH f1 (S i) (<[i:=x]> ret) Hh1) as (f' & -> & Hcap' & Hh');
      [rewrite length_insert; lia|].
    exists f'. split; [|split; [congruence | done]].
    rewrite (take_S_r _ _ x) by (apply list_lookup_insert_eq; lia).
    rewrite take_insert_ge by lia. by rewrite <- app_assoc.
Qed.

Lemma CircularFifo_removeall_queue f q :
  CircularFifo_holds f q →
  ∃ f', CircularFifo.RemoveAll default f = Some (q, f')
    ∧ CircularFifo._capacity f' = CircularFifo._capacity f
    ∧ CircularFifo_holds f' [].
Proof.
  intros Hh. pose proof (CircularFifo_holds_length f q Hh) as Hlen.
  unfold CircularFifo.RemoveAll.
  pose proof Hh as (Hwf & Hrest).
  rewrite CircularFifo_count_mod by done. simpl.
  rewrite <- Hlen, Nat2Z.id, length_replicate.
  destruct (RemoveAll_for_queue f q 0 (replicate (length q) default))
    as (f' & Hr & Hcap & Hh'); [by split | by rewrite length_replicate |].
  exists f'. split; [exact Hr | done].
Qed.

Lemma CircularFifo_clear_holds f q :
  CircularFifo_holds f q → CircularFifo_holds (CircularFifo.Clear f) [].
Proof.
  intros ((Hn & Hl & Hi & Ho) & Hcap & _).
  split; [repeat split; simpl; (done || lia)|].
  split; [done|]. simpl. unfold ring_contents.
  by rewrite Z.sub_diag, Z.mod_0_l by lia.
Qed.

(** One method call against the same call on the list. *)
Lemma CircularFifo_call_queue f q (m : method T) :
  CircularFifo_holds f q →
  ∃ f', CircularFifo_call default f m
        = Some (fst (list_call (CircularFifo._capacity f) q m), f')
    ∧ CircularFifo._capacity f' = CircularFifo._capacity f
    ∧ CircularFifo_holds f' (snd (list_call (CircularFifo._capacity f) q m)).
Proof.
  intros Hh. pose proof (CircularFifo_holds_length f q Hh) as Hlen.
  pose proof Hh as (Hwf & Hcap & Hq).
  pose proof Hwf as (Hn & Hl & Hi & Ho).
  pose proof (Z.mod_pos_bound
                (CircularFifo._inIdx f - CircularFifo._outIdx f)
                (CircularFifo._size f) ltac:(lia)) as Hc.
  assert (2 ^ 31 < 2 ^ 32) as H32 by done.
  destruct m as [x | x | | | | | | | | |]; simpl.
  - destruct (CircularFifo_insert_queue f q x Hh) as (f' & -> & Hcap' & Hh').
    simpl. exists f'.
    by destruct (Z.of_nat (length q) <? CircularFifo._capacity f).
  - destruct (CircularFifo_remove_queue f q x Hh) as (f' & -> & Hcap' & Hh').
    exists f'. by destruct q.
  - destruct (CircularFifo_remove0_queue f q Hh) as (f' & -> & Hcap' & Hh').
    exists f'. by destruct q.
  - destruct (CircularFifo_removeall_queue f q Hh)
      as (f' & -> & Hcap' & Hh').
    by exists f'.
  - rewrite (CircularFifo_getall_queue f q Hh). by exists f.
  - rewrite CircularFifo_count_mod by done. simpl.
    exists f. by rewrite Hlen.
  - unfold CircularFifo.UnusedCount.
    rewrite CircularFifo_count_mod by done. simpl.
    exists f. rewrite u32_small by lia. by rewrite Hlen.
  - unfold CircularFifo.IsFull. rewrite umod_next by done. simpl.
    exists f. split; [|done]. do 3 f_equal. rewrite Hlen, Hcap.
    pose proof (ring_full_count _ _ _ Hi Ho) as Hfull.
    destruct (Z.eqb_spec
                ((CircularFifo._inIdx f + 1) mod CircularFifo._size f)
                (CircularFifo._outIdx f)) as [E|E]; symmetry;
      [apply Z.eqb_eq | apply Z.eqb_neq]; tauto.
  - exists f. split; [|done]. do 3 f_equal. rewrite Hlen.
    unfold CircularFifo.IsEmpty. rewrite mod_diff by done.
    destruct (Z.eqb_spec (CircularFifo._inIdx f) (CircularFifo._outIdx f)),
      (Z.ltb_spec (CircularFifo._inIdx f) (CircularFifo._outIdx f));
      symmetry; (apply Z.eqb_eq || apply Z.eqb_neq); lia.
  - exists (CircularFifo.Clear f). split; [done|]. split; [done|].
    by apply (CircularFifo_clear_holds f q).
  - by exists f.
Qed.

Lemma CircularFifo_trace_queue (ms : list (method T)) f q :
  CircularFifo_holds f q →
  CircularFifo_trace default ms f
  = Some (list_trace (CircularFifo._capacity f) ms q).
Proof.
  revert f q. induction ms as [|m ms IH]; intros f q Hh; [done|].
  cbn [CircularFifo_trace list_trace].
  destruct (CircularFifo_call_queue f q m Hh) as (f' & -> & Hcap' & Hh').
  destruct (list_call (CircularFifo._capacity f) q m) as [a q'].
  cbn [fst snd] in *. simpl.
  by rewrite (IH f' q' Hh'), Hcap'.
Qed.

End CircularFifoQueue.

(** [CircularFifo<T>] is a bounded FIFO queue: on a queue constructed with
    [capacity], every sequence of [Insert], [Remove (ref item)], [Remove ()],
    [RemoveAll], [GetAll], [Count], [UnusedCount], [IsFull], [IsEmpty],
    [Clear] and [Capacity] calls runs without an exception and returns what
    the same calls return on a list that holds at most [capacity] elements:
    inserts go to the back, removes take from the front, [GetAll] and
    [RemoveAll] list the elements oldest first. *)
Theorem CircularFifo_refines_queue {T : Type} (default : T) (capacity : Z)
  (ms : list (method T)) :
  0 ≤ capacity < 2 ^ 31 →
  CircularFifo_trace default ms (CircularFifo.new default capacity)
  = Some (list_trace capacity ms []).
Proof.
  intros Hc.
  by rewrite (CircularFifo_trace_queue default ms _ [])
    by by apply CircularFifo_new_holds.
Qed.

Lemma CircularFifo_refines_queue_witness :
  CircularFifo_trace x00
    [MInsert x01; MInsert x02; MInsert x03; MIsFull; MRemove xff;
     MInsert x04; MGetAll; MRemove0; MCount; MUnusedCount; MRemoveAll;
     MIsEmpty; MInsert x05; MClear; MRemove xff; MCapacity]
    (CircularFifo.new x00 3)
  = Some (list_trace 3
            [MInsert x01; MInsert x02; MInsert x03; MIsFull; MRemove xff;
             MInsert x04; MGetAll; MRemove0; MCount; MUnusedCount;
             MRemoveAll; MIsEmpty; MInsert x05; MClear; MRemove xff;
             MCapacity] []).
Proof. apply (CircularFifo_refines_queue x00 3). lia. Defined.

(** ** Emptiness, fullness and the count *)

(** In every well-formed state of each variant the empty test holds exactly
    when the count is 0 and the full test exactly when the count is the
    slot count minus one. *)
Theorem empty_full_agree_with_count :
  (∀ f : Gfifo.gfifo,
     gfifo_wf f →
     (Gfifo.gfifo_empty f = true ↔ Gfifo.gfifo_vaild_count f = 0)
     ∧ (Gfifo.gfifo_full f = true
        ↔ Gfifo.gfifo_vaild_count f = Gfifo.size f - 1))
  ∧ (∀ f : GenericFifo.generic_fifo,
       generic_fifo_wf f →
       ∃ c full,
         GenericFifo.generic_fifo_valid_count f = Some c
         ∧ GenericFifo.generic_fifo_full f = Some full
         ∧ (GenericFifo.generic_fifo_empty f = true ↔ c = 0)
         ∧ (full = true ↔ c = GenericFifo.size f - 1))
  ∧ (∀ (T : Type) (f : CircularFifo.CircularFifo T),
       CircularFifo_wf f →
       ∃ c full,
         CircularFifo.Count f = Some c
         ∧ CircularFifo.IsFull f = Some full
         ∧ (CircularFifo.IsEmpty f = true ↔ c = 0)
         ∧ (full = true ↔ c = CircularFifo._size f - 1)).
Proof.
  assert (∀ n i o, 0 ≤ i < n → 0 ≤ o < n →
            ((i =? o) = true ↔ (i - o) mod n = 0)
            ∧ (((i + 1) mod n =? o) = true ↔ (i - o) mod n = n - 1))
    as Hring.
  { intros n i o Hi Ho. rewrite !Z.eqb_eq. split.
    - rewrite mod_diff by done. destruct (Z.ltb_spec i o); lia.
    - by apply ring_full_count. }
  split; [|split].
  - intros f Hwf. pose proof Hwf as (_ & _ & Hi & Ho).
    rewrite gfifo_count_mod by done.
    unfold Gfifo.gfifo_empty, Gfifo.gfifo_full.
    rewrite gfifo_next by done. by apply Hring.
  - intros f Hwf. pose proof Hwf as (_ & Hi & Ho).
    rewrite generic_fifo_count_mod, generic_fifo_full_mod by done.
    eexists _, _. do 2 (split; [done|]).
    unfold GenericFifo.generic_fifo_empty. by apply Hring.
  - intros T f Hwf. pose proof Hwf as (Hn & _ & Hi & Ho).
    rewrite CircularFifo_count_mod by done.
    unfold CircularFifo.IsFull. rewrite umod_next by done. simpl.
    eexists _, _. do 2 (split; [done|]).
    unfold CircularFifo.IsEmpty. by apply Hring.
Qed.

Lemma empty_full_agree_with_count_witness :
  ((Gfifo.gfifo_empty gfifo_filled = true
    ↔ Gfifo.gfifo_vaild_count gfifo_filled = 0)
   ∧ (Gfifo.gfifo_full gfifo_filled = true
      ↔ Gfifo.gfifo_vaild_count gfifo_filled = Gfifo.size gfifo_filled - 1))
  ∧ (∃ c full,
       GenericFifo.generic_fifo_valid_count generic_fifo_wrapped = Some c
       ∧ GenericFifo.generic_fifo_full generic_fifo_wrapped = Some full
       ∧ (GenericFifo.generic_fifo_empty generic_fifo_wrapped = true
          ↔ c = 0)
       ∧ (full = true ↔ c = GenericFifo.size generic_fifo_wrapped - 1))
  ∧ (∃ c full,
       CircularFifo.Count (CircularFifo.new x00 3) = Some c
       ∧ CircularFifo.IsFull (CircularFifo.new x00 3) = Some full
       ∧ (CircularFifo.IsEmpty (CircularFifo.new x00 3) = true ↔ c = 0)
       ∧ (full = true
          ↔ c = CircularFifo._size (CircularFifo.new x00 3) - 1)).
Proof.
  destruct empty_full_agree_with_count as (Hg & Hq & Hc).
  split; [|split].
  - apply Hg. split; [exists 2; split; [lia | reflexivity]|].
    vm_compute. repeat split; (reflexivity || discriminate).
  - apply Hq. vm_compute. repeat split; (reflexivity || discriminate).
  - apply Hc. vm_compute. repeat split; (reflexivity || discriminate).
Defined.

(** ** [gfifo]: peek, throw and the bulk operations on the queue *)

Lemma gfifo_contents_length (esz : Z) (f : Gfifo.gfifo) :
  gfifo_wf f →
  Z.of_nat (length (gfifo_contents esz f)) = Gfifo.gfifo_vaild_count f.
Proof.
  intros Hwf. rewrite gfifo_count_mod by done.
  destruct Hwf as (Hp%pow2_u32_bounds & _).
  pose proof (Z.mod_pos_bound (Gfifo.in_ f - Gfifo.out f) (Gfifo.size f)
                ltac:(lia)).
  unfold gfifo_contents. rewrite ring_contents_length. lia.
Qed.

(** [gfifo_throw] drops the oldest element and touches no slot;
    [gfifo_peek], when [sizoef] is [sizeof], copies the oldest element out
    and changes nothing.  On an empty queue both report failure. *)
Theorem gfifo_peek_throw_queue (esz : Z) (f : Gfifo.gfifo) (v : list byte) :
  gfifo_wf f → 0 ≤ esz →
  Gfifo.size f * esz ≤ Z.of_nat (length (Gfifo.data f)) →
  Z.of_nat (length v) = esz →
  Gfifo.gfifo_peek esz f v esz
  = Some (match gfifo_contents esz f with
          | [] => (false, v, f)
          | x :: _ => (true, x, f)
          end)
  ∧ ∃ f', Gfifo.gfifo_throw f
          = (match gfifo_contents esz f with
             | [] => false
             | _ :: _ => true
             end, f')
      ∧ gfifo_wf f'
      ∧ Gfifo.data f' = Gfifo.data f
      ∧ Gfifo.in_ f' = Gfifo.in_ f
      ∧ Gfifo.size f' = Gfifo.size f
      ∧ gfifo_contents esz f' = tail (gfifo_contents esz f).
Proof.
  intros Hwf Hesz Hmem Hv.
  pose proof Hwf as (Hp & Hm & Hi & Ho).
  pose proof (pow2_u32_bounds _ Hp) as Hb.
  pose proof (mod_diff (Gfifo.size f) (Gfifo.in_ f) (Gfifo.out f) Hi Ho)
    as Hcnt.
  unfold Gfifo.gfifo_peek, Gfifo.gfifo_throw.
  rewrite gfifo_next by done.
  destruct (Z.eqb_spec (Gfifo.in_ f) (Gfifo.out f)) as [E | E]; simpl.
  - assert (gfifo_contents esz f = []) as Hnil
      by (unfold gfifo_contents, ring_contents;
          rewrite E, Z.sub_diag, Z.mod_0_l by lia; by rewrite seqZ_nil).
    rewrite Hnil. split; [done|]. exists f. by rewrite Hnil.
  - assert (0 < (Gfifo.in_ f - Gfifo.out f) mod Gfifo.size f) as Hpos
      by (rewrite Hcnt; destruct (Z.ltb_spec (Gfifo.in_ f) (Gfifo.out f));
          lia).
    assert (gfifo_contents esz f
            = slot (Gfifo.data f) esz (Gfifo.out f)
              :: ring_contents (slot (Gfifo.data f) esz)
                   ((Gfifo.out f + 1) mod Gfifo.size f)
                   ((Gfifo.in_ f - Gfifo.out f) mod Gfifo.size f - 1)
                   (Gfifo.size f)) as ->
      by (unfold gfifo_contents; by rewrite ring_contents_pop).
    rewrite memcpy_whole by nia. split; [done|].
    eexists. split; [done|].
    pose proof (Z.mod_pos_bound (Gfifo.out f + 1) (Gfifo.size f)
                  ltac:(lia)).
    split; [repeat split; simpl; (done || lia)|].
    do 3 (split; [done|]).
    unfold gfifo_contents. simpl. by rewrite ring_remove_count.
Qed.

Lemma gfifo_peek_throw_queue_witness :
  Gfifo.gfifo_peek 1 gfifo_filled [x00] 1
  = Some (match gfifo_contents 1 gfifo_filled with
          | [] => (false, [x00], gfifo_filled)
          | x :: _ => (true, x, gfifo_filled)
          end)
  ∧ ∃ f', Gfifo.gfifo_throw gfifo_filled
          = (match gfifo_contents 1 gfifo_filled with
             | [] => false
             | _ :: _ => true
             end, f')
      ∧ gfifo_wf f'
      ∧ Gfifo.data f' = Gfifo.data gfifo_filled
      ∧ Gfifo.in_ f' = Gfifo.in_ gfifo_filled
      ∧ Gfifo.size f' = Gfifo.size gfifo_filled
      ∧ gfifo_contents 1 f' = tail (gfifo_contents 1 gfifo_filled).
Proof.
  apply (gfifo_peek_throw_queue 1 gfifo_filled [x00]).
  - split; [exists 2; split; [lia | reflexivity]|].
    vm_compute. repeat split; (reflexivity || discriminate).
  - lia.
  - vm_compute. discriminate.
  - reflexivity.
Defined.

(** Elements copied from element [s] of the source on land in slots [i],
    [i + 1], ... in order. *)
Lemma slot_memcpy_elems (m src m' : list byte) (esz i s n k : Z) :
  memcpy m (i * esz) src (s * esz) (esz * n) = Some m' →
  0 ≤ esz → 0 ≤ i → 0 ≤ s → 0 ≤ k < n →
  slot m' esz (i + k) = slot src esz (s + k).
Proof.
  intros Hm Hesz Hi Hs Hk. apply list_eq. intros q.
  rewrite !slot_lookup. case_decide as Hq; [|done].
  rewrite (memcpy_lookup _ _ _ _ _ _ _ Hm).
  rewrite decide_True by nia. f_equal. nia.
Qed.



(** [gfifo_remove_array] of more elements than the queue holds is refused
    and changes neither the queue nor the array; of at most that many, with
    the run ending before the end of the storage, it succeeds, copies the
    [_len] oldest elements to the array in order, leaves the rest of the
    array and every slot as they were, and advances the read cursor and
    lowers the count by [_len]. *)
Theorem remove_array_contiguous (f : Gfifo.gfifo) (arr : list byte)
  (len esz : Z) :
  gfifo_wf f → 0 ≤ esz → 0 ≤ len →
  Gfifo.size f * esz ≤ Z.of_nat (length (Gfifo.data f)) →
  len * esz ≤ Z.of_nat (length arr) →
  (Gfifo.gfifo_vaild_count f < len →
   Gfifo.gfifo_remove_array f arr len esz = Some (false, arr, f))
  ∧ (len ≤ Gfifo.gfifo_vaild_count f →
     Gfifo.out f + len < Gfifo.size f →
     ∃ a f', Gfifo.gfifo_remove_array f arr len esz = Some (true, a, f')
       ∧ Gfifo.data f' = Gfifo.data f
       ∧ Gfifo.in_ f' = Gfifo.in_ f
       ∧ Gfifo.out f' = Gfifo.out f + len
       ∧ Gfifo.size f' = Gfifo.size f
       ∧ Gfifo.mask f' = Gfifo.mask f
       ∧ Gfifo.gfifo_vaild_count f' = Gfifo.gfifo_vaild_count f - len
       ∧ (∀ k, 0 ≤ k < len →
            slot a esz k = slot (Gfifo.data f) esz (Gfifo.out f + k))
       ∧ drop (Z.to_nat (len * esz)) a = drop (Z.to_nat (len * esz)) arr).
Proof.
  intros Hwf Hesz Hlen Hmem Harr.
  pose proof (gfifo_count_range f Hwf) as Hc.
  pose proof Hwf as (Hp & Hm & Hi & Ho).
  pose proof (pow2_u32_bounds _ Hp) as Hb.
  assert (2 ^ 31 + 2 ^ 31 = 2 ^ 32) as H32 by done.
  unfold Gfifo.gfifo_remove_array.
  rewrite as_unsigned_nonneg by done. split.
  - intros Hunder.
    destruct (Z.leb_spec len (Gfifo.gfifo_vaild_count f)); [lia | done].
  - intros Hhave Hrun.
    destruct (Z.leb_spec len (Gfifo.gfifo_vaild_count f)); [|lia].
    rewrite u32_small by lia.
    destruct (Z.ltb_spec (Gfifo.out f + len) (Gfifo.size f)); [|lia].
    destruct (memcpy arr 0 (Gfifo.data f) (Gfifo.out f * esz) (esz * len))
      as [a|] eqn:Ha;
      [|exfalso; unfold memcpy in Ha; rewrite decide_True in Ha;
        [done | nia]].
    simpl. eexists _, _. split; [done|]. simpl.
    assert (Z.land (Gfifo.out f + len) (Gfifo.mask f) = Gfifo.out f + len)
      as Hout by (rewrite Hm, land_pow2_mask by done; apply Z.mod_small; lia).
    rewrite Hout. do 5 (split; [done|]).
    split; [|split].
    + rewrite (gfifo_count_mod f Hwf), mod_diff in Hhave |- * by lia.
      unfold Gfifo.gfifo_vaild_count. simpl.
      rewrite Hm, land_pow2_mask, u32_mod_pow2, mod_diff by (done || lia).
      destruct (Z.ltb_spec (Gfifo.in_ f) (Gfifo.out f)),
        (Z.ltb_spec (Gfifo.in_ f) (Gfifo.out f + len)); lia.
    + intros k Hk.
      replace k with (0 + k) at 1 by lia.
      apply (slot_memcpy_elems arr (Gfifo.data f) a esz 0 (Gfifo.out f)
               len k); (done || lia).
    + apply list_eq. intros p. rewrite !lookup_drop.
      rewrite (memcpy_lookup _ _ _ _ _ _ _ Ha).
      rewrite decide_False; [done|]. nia.
Qed.

Lemma remove_array_contiguous_witness :
  Gfifo.gfifo_remove_array gfifo_one_held [xff; xff; xff] 2 1
  = Some (false, [xff; xff; xff], gfifo_one_held)
  ∧ ∃ a f', Gfifo.gfifo_remove_array gfifo_filled [xff; xff; xff] 2 1
            = Some (true, a, f')
      ∧ Gfifo.data f' = Gfifo.data gfifo_filled
      ∧ Gfifo.in_ f' = Gfifo.in_ gfifo_filled
      ∧ Gfifo.out f' = Gfifo.out gfifo_filled + 2
      ∧ Gfifo.size f' = Gfifo.size gfifo_filled
      ∧ Gfifo.mask f' = Gfifo.mask gfifo_filled
      ∧ Gfifo.gfifo_vaild_count f' = Gfifo.gfifo_vaild_count gfifo_filled - 2
      ∧ (∀ k, 0 ≤ k < 2 →
           slot a 1 k
           = slot (Gfifo.data gfifo_filled) 1 (Gfifo.out gfifo_filled + k))
      ∧ drop (Z.to_nat (2 * 1)) a
        = drop (Z.to_nat (2 * 1)) [xff; xff; xff].
Proof.
  split.
  - apply (remove_array_contiguous gfifo_one_held [xff; xff; xff] 2 1).
    + split; [exists 2; split; [lia | reflexivity]|].
      vm_compute. repeat split; (reflexivity || discriminate).
    + lia.
    + lia.
    + vm_compute. discriminate.
    + vm_compute. discriminate.
    + vm_compute. reflexivity.
  - apply (remove_array_contiguous gfifo_filled [xff; xff; xff] 2 1).
    + split; [exists 2; split; [lia | reflexivity]|].
      vm_compute. repeat split; (reflexivity || discriminate).
    + lia.
    + lia.
    + vm_compute. discriminate.
    + vm_compute. discriminate.
    + vm_compute. discriminate.
    + vm_compute. reflexivity.
Defined.

(** A negative [int] length is compared as an [unsigned int] of at least
    [2^31], more than any well-formed queue holds: refused, nothing
    changed. *)
Lemma remove_array_negative_refused (f : Gfifo.gfifo) (arr : list byte)
  (len esz : Z) :
  gfifo_wf f → - 2 ^ 31 ≤ len < 0 →
  Gfifo.gfifo_remove_array f arr len esz = Some (false, arr, f).
Proof.
  intros Hwf Hlen.
  pose proof (gfifo_count_range f Hwf) as Hc.
  pose proof Hwf as (Hp%pow2_u32_bounds & _).
  assert (2 ^ 31 + 2 ^ 31 = 2 ^ 32) as H32 by done.
  unfold Gfifo.gfifo_remove_array, as_unsigned.
  destruct (Z.ltb_spec len 0); [|lia].
  destruct (Z.leb_spec (len + 2 ^ 32) (Gfifo.gfifo_vaild_count f));
    [lia | done].
Qed.



(** ** [generic_fifo]: overwrite and search by queue position *)

Lemma bytes_cmp_eq (a b : list byte) :
  length a = length b → (bytes_cmp a b = 0 ↔ a = b).
Proof.
  revert b. induction a as [|x a IH]; intros [|y b] Hlen; simpl in *;
    try done.
  destruct (N.compare_spec (Byte.to_N x) (Byte.to_N y)) as [E | E | E].
  - assert (x = y) as ->.
    { pose proof (Byte.of_to_N x) as Hx. rewrite E, Byte.of_to_N in Hx.
      by injection Hx. }
    rewrite IH by lia. split; [by intros -> | by intros [= ->]].
  - split; [done|]. intros [= -> _]. lia.
  - split; [done|]. intros [= -> _]. lia.
Qed.

(** Comparing a value with a slot. *)
Lemma memcmp_slot (v m : list byte) (esz i : Z) :
  0 ≤ esz → 0 ≤ i → Z.of_nat (length v) = esz →
  (i + 1) * esz ≤ Z.of_nat (length m) →
  ∃ c, memcmp v 0 m (i * esz) esz = Some c ∧ (c = 0 ↔ slot m esz i = v).
Proof.
  intros Hesz Hi Hv Hm. unfold memcmp.
  rewrite decide_True by nia. eexists. split; [done|].
  change (Z.to_nat 0) with 0%nat. rewrite drop_0, (take_ge v) by lia.
  fold (slot m esz i).
  rewrite bytes_cmp_eq; [by split|].
  unfold slot. rewrite length_take, length_drop. nia.
Qed.

Lemma generic_fifo_contents_lookup (esz : Z) (f : GenericFifo.generic_fifo)
  (k : Z) :
  generic_fifo_wf f →
  0 ≤ k < (GenericFifo.in_idx f - GenericFifo.out_idx f)
          mod GenericFifo.size f →
  generic_fifo_contents esz f !! Z.to_nat k
  = Some (slot (GenericFifo.buffer f) esz
            ((GenericFifo.out_idx f + k) mod GenericFifo.size f)).
Proof.
  intros Hwf Hk. unfold generic_fifo_contents.
  rewrite ring_contents_lookup by lia. by rewrite Z2Nat.id by lia.
Qed.

(** [generic_fifo_change] with an index that is not below the count is
    refused and returns the state it was given, every field and every byte
    of the storage as it was.  With [0 <= index < count] it succeeds and
    writes the value into slot [(out_idx + index) % size] only: the element
    at queue position [index] is replaced, every other slot of the storage
    keeps its content, the storage keeps its length, and both cursors, the
    size and the flag are unchanged. *)
Theorem generic_fifo_change_queue (esz : Z) (f : GenericFifo.generic_fifo)
  (v : list byte) (index : Z) :
  generic_fifo_wf f → 0 ≤ esz →
  GenericFifo.size f * esz ≤ Z.of_nat (length (GenericFifo.buffer f)) →
  Z.of_nat (length v) = esz →
  0 ≤ index →
  (Z.of_nat (length (generic_fifo_contents esz f)) ≤ index →
   GenericFifo.generic_fifo_change f v index esz = Some (false, f))
  ∧ (index < Z.of_nat (length (generic_fifo_contents esz f)) →
     ∃ f', GenericFifo.generic_fifo_change f v index esz = Some (true, f')
       ∧ GenericFifo.in_idx f' = GenericFifo.in_idx f
       ∧ GenericFifo.out_idx f' = GenericFifo.out_idx f
       ∧ GenericFifo.size f' = GenericFifo.size f
       ∧ GenericFifo.user_buffer_flag f' = GenericFifo.user_buffer_flag f
       ∧ length (GenericFifo.buffer f') = length (GenericFifo.buffer f)
       ∧ generic_fifo_contents esz f'
         = <[Z.to_nat index := v]> (generic_fifo_contents esz f)
       ∧ (∀ j, 0 ≤ j →
            j ≠ (GenericFifo.out_idx f + index) mod GenericFifo.size f →
            slot (GenericFifo.buffer f') esz j
            = slot (GenericFifo.buffer f) esz j)).
Proof.
  intros Hwf Hesz Hmem Hv Hidx.
  pose proof Hwf as (Hn & Hi & Ho).
  assert (2 ^ 31 + 2 ^ 31 = 2 ^ 32) as H32 by done.
  pose proof (generic_fifo_contents_length esz f Hwf) as Hlen.
  pose proof (Z.mod_pos_bound
                (GenericFifo.in_idx f - GenericFifo.out_idx f)
                (GenericFifo.size f) ltac:(lia)) as Hc.
  unfold GenericFifo.generic_fifo_change.
  rewrite generic_fifo_count_mod by done. simpl. rewrite Hlen.
  split.
  - intros Hout.
    destruct (Z.ltb_spec index
                ((GenericFifo.in_idx f - GenericFifo.out_idx f)
                 mod GenericFifo.size f)); [lia | done].
  - intros Hin.
    destruct (Z.ltb_spec index
                ((GenericFifo.in_idx f - GenericFifo.out_idx f)
                 mod GenericFifo.size f)); [|lia].
    rewrite u32_small, umod_pos by lia. simpl.
    pose proof (Z.mod_pos_bound (GenericFifo.out_idx f + index)
                  (GenericFifo.size f) ltac:(lia)) as Hslot.
    destruct (memcpy (GenericFifo.buffer f)
                ((GenericFifo.out_idx f + index) mod GenericFifo.size f * esz)
                v 0 esz) as [d|] eqn:Hd;
      [|exfalso; unfold memcpy in Hd; rewrite decide_True in Hd;
        [done | nia]].
    simpl. eexists. split; [done|]. do 4 (split; [done|]).
    split; [by eapply memcpy_length|].
    assert (∀ j, 0 ≤ j →
              j ≠ (GenericFifo.out_idx f + index) mod GenericFifo.size f →
              slot d esz j = slot (GenericFifo.buffer f) esz j) as Hframe.
    { intros j Hj Hne.
      apply (slot_memcpy_frame _ _ _ _ _ _ _ _ Hd); try lia. nia. }
    split; [|exact Hframe].
    apply list_eq. intros p.
    destruct (decide (p = Z.to_nat index)) as [-> | Hne].
    + rewrite list_lookup_insert_eq by lia.
      unfold generic_fifo_contents. simpl.
      rewrite ring_contents_lookup by lia. rewrite Z2Nat.id by lia.
      by rewrite (slot_memcpy _ _ _ _ _ Hd), take_ge by lia.
    + rewrite list_lookup_insert_ne by done.
      unfold generic_fifo_contents. simpl.
      destruct (decide (Z.of_nat p
                        < (GenericFifo.in_idx f - GenericFifo.out_idx f)
                          mod GenericFifo.size f)) as [Hp | Hp].
      * rewrite !ring_contents_lookup by done. f_equal.
        apply Hframe.
        { apply Z.mod_pos_bound. lia. }
        intros Heq%mod_add_inj; lia.
      * rewrite !(proj2 (lookup_ge_None _ _))
          by (rewrite ring_contents_length; lia). done.
Qed.

Lemma generic_fifo_change_queue_witness :
  GenericFifo.generic_fifo_change generic_fifo_wrapped [xff] 2 1
  = Some (false, generic_fifo_wrapped)
  ∧ ∃ f', GenericFifo.generic_fifo_change generic_fifo_wrapped [xff] 1 1
          = Some (true, f')
      ∧ GenericFifo.in_idx f' = GenericFifo.in_idx generic_fifo_wrapped
      ∧ GenericFifo.out_idx f' = GenericFifo.out_idx generic_fifo_wrapped
      ∧ GenericFifo.size f' = GenericFifo.size generic_fifo_wrapped
      ∧ GenericFifo.user_buffer_flag f'
        = GenericFifo.user_buffer_flag generic_fifo_wrapped
      ∧ length (GenericFifo.buffer f')
        = length (GenericFifo.buffer generic_fifo_wrapped)
      ∧ generic_fifo_contents 1 f'
        = <[Z.to_nat 1 := [xff]]>
            (generic_fifo_contents 1 generic_fifo_wrapped)
      ∧ (∀ j, 0 ≤ j →
           j ≠ (GenericFifo.out_idx generic_fifo_wrapped + 1)
               mod GenericFifo.size generic_fifo_wrapped →
           slot (GenericFifo.buffer f') 1 j
           = slot (GenericFifo.buffer generic_fifo_wrapped) 1 j).
Proof.
  assert (generic_fifo_wf generic_fifo_wrapped) as Hwf
    by (vm_compute; repeat split; (reflexivity || discriminate)).
  split.
  - apply (generic_fifo_change_queue 1 generic_fifo_wrapped [xff] 2 Hwf).
    + lia.
    + vm_compute. discriminate.
    + reflexivity.
    + lia.
    + vm_compute. discriminate.
  - apply (generic_fifo_change_queue 1 generic_fifo_wrapped [xff] 1 Hwf).
    + lia.
    + vm_compute. discriminate.
    + reflexivity.
    + lia.
    + vm_compute. reflexivity.
Defined.

Lemma select_value_while_first (esz : Z) (f : GenericFifo.generic_fifo)
  (v : list byte) (fuel : nat) (c : Z) :
  generic_fifo_wf f → 0 ≤ esz →
  GenericFifo.size f * esz ≤ Z.of_nat (length (GenericFifo.buffer f)) →
  Z.of_nat (length v) = esz →
  let q := generic_fifo_contents esz f in
  0 ≤ c → Z.of_nat fuel = Z.of_nat (length q) - c →
  (∀ k, (k < Z.to_nat c)%nat → q !! k ≠ Some v) →
  ∃ r, GenericFifo.select_value_while f v esz fuel c
         ((GenericFifo.out_idx f + c) mod GenericFifo.size f)
         (Z.of_nat (length q)) = Some r
    ∧ ((r = -1 ∧ v ∉ q)
       ∨ (0 ≤ r ∧ q !! Z.to_nat r = Some v
          ∧ ∀ k, (k < Z.to_nat r)%nat → q !! k ≠ Some v)).
Proof.
  intros Hwf Hesz Hmem Hv q.
  pose proof Hwf as (Hn & Hi & Ho).
  assert (2 ^ 31 + 2 ^ 31 = 2 ^ 32) as H32 by done.
  pose proof (generic_fifo_contents_length esz f Hwf) as Hlen.
  fold q in Hlen.
  pose proof (Z.mod_pos_bound
                (GenericFifo.in_idx f - GenericFifo.out_idx f)
                (GenericFifo.size f) ltac:(lia)) as Hcnt.
  revert c. induction fuel as [|fuel IH]; intros c Hc Hfuel Hnot; simpl.
  - exists (-1). split; [done|]. left. split; [done|].
    intros (k & Hk)%list_elem_of_lookup.
    apply (Hnot k); [|done]. apply lookup_lt_Some in Hk. lia.
  - destruct (Z.ltb_spec c (Z.of_nat (length q))); [|lia].
    pose proof (Z.mod_pos_bound (GenericFifo.out_idx f + c)
                  (GenericFifo.size f) ltac:(lia)) as Hoff.
    destruct (memcmp_slot v (GenericFifo.buffer f) esz
                ((GenericFifo.out_idx f + c) mod GenericFifo.size f))
      as (cmp & -> & Hcmp); [done | lia | done | nia |].
    simpl.
    assert (q !! Z.to_nat c
            = Some (slot (GenericFifo.buffer f) esz
                      ((GenericFifo.out_idx f + c) mod GenericFifo.size f)))
      as Hqc by (apply generic_fifo_contents_lookup; [done | lia]).
    destruct (Z.eqb_spec cmp 0) as [E | E].
    + exists c. split; [done|]. right.
      split; [done|]. split; [|done].
      rewrite Hqc. f_equal. by apply Hcmp.
    + rewrite u32_small, umod_pos by lia. simpl.
      rewrite to_int_small
        by (pose proof (Z.mod_pos_bound (GenericFifo.out_idx f + (c + 1))
                          (GenericFifo.size f) ltac:(lia)); lia).
      apply IH; [lia | lia |].
      intros k Hk.
      destruct (decide (k = Z.to_nat c)) as [-> | Hne];
        [|apply Hnot; lia].
      rewrite Hqc. intros [= Heq]. by apply E, Hcmp.
Qed.

(** [generic_fifo_select_value] searches the queue oldest first: it
    returns the queue position of the first element equal to the value, or
    [-1] when no element of the queue equals it (so never for a slot outside
    the queue, and always [-1] on an empty queue). *)
Theorem generic_fifo_select_value_first (esz : Z)
  (f : GenericFifo.generic_fifo) (v : list byte) :
  generic_fifo_wf f → 0 ≤ esz →
  GenericFifo.size f * esz ≤ Z.of_nat (length (GenericFifo.buffer f)) →
  Z.of_nat (length v) = esz →
  ∃ r, GenericFifo.generic_fifo_select_value f v esz = Some r
    ∧ ((r = -1 ∧ v ∉ generic_fifo_contents esz f)
       ∨ (0 ≤ r
          ∧ generic_fifo_contents esz f !! Z.to_nat r = Some v
          ∧ ∀ k, (k < Z.to_nat r)%nat →
              generic_fifo_contents esz f !! k ≠ Some v)).
Proof.
  intros Hwf Hesz Hmem Hv.
  pose proof Hwf as (Hn & Hi & Ho).
  pose proof (generic_fifo_contents_length esz f Hwf) as Hlen.
  unfold GenericFifo.generic_fifo_select_value.
  rewrite generic_fifo_count_mod by done. simpl.
  unfold GenericFifo.generic_fifo_empty.
  destruct (Z.eqb_spec (GenericFifo.in_idx f) (GenericFifo.out_idx f))
    as [E | E]; simpl.
  - exists (-1). split; [done|]. left. split; [done|].
    rewrite E, Z.sub_diag, Z.mod_0_l in Hlen by lia.
    destruct (generic_fifo_contents esz f); [|simpl in Hlen; lia].
    apply not_elem_of_nil.
  - rewrite to_int_small by lia. rewrite <- Hlen, Nat2Z.id.
    pose proof (select_value_while_first esz f v
                  (length (generic_fifo_contents esz f)) 0
                  Hwf Hesz Hmem Hv) as Hloop.
    cbv zeta in Hloop.
    rewrite Z.add_0_r, (Z.mod_small (GenericFifo.out_idx f)) in Hloop
      by lia.
    apply Hloop; [lia | lia |].
    intros k Hk. simpl in Hk. lia.
Qed.

Lemma generic_fifo_select_value_first_witness :
  ∃ r, GenericFifo.generic_fifo_select_value generic_fifo_wrapped [x05] 1
       = Some r
    ∧ ((r = -1 ∧ [x05] ∉ generic_fifo_contents 1 generic_fifo_wrapped)
       ∨ (0 ≤ r
          ∧ generic_fifo_contents 1 generic_fifo_wrapped !! Z.to_nat r
            = Some [x05]
          ∧ ∀ k, (k < Z.to_nat r)%nat →
              generic_fifo_contents 1 generic_fifo_wrapped !! k
              ≠ Some [x05])).
Proof.
  apply (generic_fifo_select_value_first 1 generic_fifo_wrapped [x05]).
  - vm_compute. repeat split; (reflexivity || discriminate).
  - lia.
  - vm_compute. discriminate.
  - reflexivity.
Defined.

(** ** The index checks of the two indexed reads *)

(** [GetValue] never reports failure: on a well-formed queue, whatever the
    index, it either throws or returns [true]; for an index that is not
    negative it returns [true] with the content of slot
    [(_outIdx + index) % _size], inside the queue or not. *)
Theorem GetValue_never_refuses {T : Type} (f : CircularFifo.CircularFifo T)
  (item : T) (index : Z) :
  CircularFifo_wf f →
  (∀ r x, CircularFifo.GetValue f item index = Some (r, x) → r = true)
  ∧ (0 ≤ index →
     ∃ x, CircularFifo.GetValue f item index = Some (true, x)
       ∧ CircularFifo._buffer f
           !! Z.to_nat ((CircularFifo._outIdx f + index)
                        mod CircularFifo._size f) = Some x).
Proof.
  intros Hwf. pose proof Hwf as (Hn & Hl & Hi & Ho).
  assert (∀ r x,
            CircularFifo.GetValue f item index = Some (r, x) → r = true)
    as Htrue.
  { intros r x. unfold CircularFifo.GetValue.
    rewrite CircularFifo_count_mod by done.
    pose proof (Z.mod_pos_bound
                  (CircularFifo._inIdx f - CircularFifo._outIdx f)
                  (CircularFifo._size f) ltac:(lia)).
    destruct (Z.ltb_spec index 0); simpl.
    - destruct (Z.ltb_spec
                  ((CircularFifo._inIdx f - CircularFifo._outIdx f)
                   mod CircularFifo._size f) index); [lia|].
      destruct (CircularFifo.lrem _ _) as [i|]; simpl; [|done].
      destruct (CircularFifo.array_get _ _); simpl; [|done].
      by intros [= <- _].
    - destruct (CircularFifo.lrem _ _) as [i|]; simpl; [|done].
      destruct (CircularFifo.array_get _ _); simpl; [|done].
      by intros [= <- _]. }
  split; [done|].
  intros Hidx.
  unfold CircularFifo.GetValue, CircularFifo.lrem, CircularFifo.array_get.
  destruct (Z.ltb_spec index 0); [lia|]. simpl.
  destruct (Z.eqb_spec (CircularFifo._size f) 0); [lia|]. simpl.
  rewrite Z.rem_mod_nonneg by lia.
  pose proof (Z.mod_pos_bound (CircularFifo._outIdx f + index)
                (CircularFifo._size f) ltac:(lia)).
  destruct (Z.ltb_spec ((CircularFifo._outIdx f + index)
                        mod CircularFifo._size f) 0); [lia|].
  destruct (lookup_lt_is_Some_2 (CircularFifo._buffer f)
              (Z.to_nat ((CircularFifo._outIdx f + index)
                         mod CircularFifo._size f))) as [x Hx]; [lia|].
  exists x. by rewrite Hx.
Qed.

Lemma GetValue_never_refuses_witness :
  (∀ r x, CircularFifo.GetValue (CircularFifo.new x00 3) xff 7
          = Some (r, x) → r = true)
  ∧ ∃ x, CircularFifo.GetValue (CircularFifo.new x00 3) xff 7
         = Some (true, x)
      ∧ CircularFifo._buffer (CircularFifo.new x00 3)
          !! Z.to_nat ((CircularFifo._outIdx (CircularFifo.new x00 3) + 7)
                       mod CircularFifo._size (CircularFifo.new x00 3))
        = Some x.
Proof.
  assert (CircularFifo_wf (CircularFifo.new x00 3)) as Hwf
    by (vm_compute; repeat split; (reflexivity || discriminate)).
  split.
  - apply (GetValue_never_refuses (CircularFifo.new x00 3) xff 7 Hwf).
  - apply (GetValue_never_refuses (CircularFifo.new x00 3) xff 7 Hwf). lia.
Defined.

(** [generic_fifo_select_index] with an index below the count reads slot
    [out_idx + index] as it stands: when that is at or beyond the slot
    count, and the storage is exactly the queue's slots, the read leaves the
    storage and the call has no defined result. *)
Theorem select_index_overruns (f : GenericFifo.generic_fifo)
  (v : list byte) (index esz c : Z) :
  generic_fifo_wf f → 0 < esz →
  Z.of_nat (length (GenericFifo.buffer f)) = GenericFifo.size f * esz →
  GenericFifo.generic_fifo_valid_count f = Some c →
  0 ≤ index < c →
  GenericFifo.size f ≤ GenericFifo.out_idx f + index →
  GenericFifo.generic_fifo_select_index f v index esz = None.
Proof.
  intros (Hn & Hi & Ho) Hesz Hmem Hc Hidx Hover.
  unfold GenericFifo.generic_fifo_select_index.
  rewrite Hc. simpl.
  destruct (Z.ltb_spec index c); [|lia].
  unfold memcpy. rewrite decide_False; [done|]. nia.
Qed.

Lemma select_index_overruns_witness :
  GenericFifo.generic_fifo_select_index generic_fifo_wrapped [x00] 1 1 = None.
Proof.
  apply (select_index_overruns generic_fifo_wrapped [x00] 1 1 2).
  - vm_compute. repeat split; (reflexivity || discriminate).
  - lia.
  - vm_compute. reflexivity.
  - vm_compute. reflexivity.
  - lia.
  - vm_compute. discriminate.
Defined.
